(** * HealthRakshak sensor allocation: a shallow embedding of
      [sensor_allocation_final.py] and its verified properties.

    The development follows the four stages of the program: the topology
    loader ([_read_inp_sections], [get_skip_nodes_from_elevation],
    [create_graph_from_inp]), the nearest-neighbour resolver
    ([find_nearest_neighbors]), the sensor selector
    ([identify_initial_sensor_nodes], [identify_left_out_nodes],
    [remove_redundant_sensors]) and the coverage mapper ([map_to_sensors]).

    Python dictionaries are finite maps ([gmap]), Python sets are finite
    sets ([gset]), adjacency lists are lists (their order decides the
    nearest neighbour).  A [KeyError] is the [None] of an [option]. *)

From Stdlib Require Import Ascii String ZArith QArith Qcanon.
From stdpp Require Import base option list strings gmap fin_maps fin_sets.

Open Scope string_scope.
Open Scope list_scope.
Open Scope nat_scope.
Open Scope stdpp_scope.

(** ** Python [str] methods used by the loader.

    A [str] is a Rocq [string]; its characters are read as ASCII code
    points (other characters are neither white space nor cased). *)
Module PyStr.

(** [c.isspace()]: tab, line feed, vertical tab, form feed, carriage
    return, the four separators 0x1c-0x1f and the blank. *)
Definition is_space (c : ascii) : bool :=
  let n := nat_of_ascii c in
  (((9 <=? n) && (n <=? 13)) || ((28 <=? n) && (n <=? 32)))%nat.

Fixpoint lstrip_by (p : ascii → bool) (s : string) : string :=
  match s with
  | String c s' => if p c then lstrip_by p s' else s
  | EmptyString => EmptyString
  end.

Definition rstrip_by (p : ascii → bool) (s : string) : string :=
  String.rev (lstrip_by p (String.rev s)).

Definition strip_by (p : ascii → bool) (s : string) : string :=
  rstrip_by p (lstrip_by p s).

(** [s.strip()] *)
Definition strip : string → string := strip_by is_space.

Fixpoint mem_char (c : ascii) (chars : string) : bool :=
  match chars with
  | String d chars' => if Ascii.eqb c d then true else mem_char c chars'
  | EmptyString => false
  end.

(** [s.strip(chars)] *)
Definition strip_chars (chars : string) : string → string :=
  strip_by (λ c, mem_char c chars).

(** [s.startswith(p)] *)
Fixpoint startswith (s p : string) : bool :=
  match p, s with
  | EmptyString, _ => true
  | String a p', String b s' => if Ascii.eqb a b then startswith s' p' else false
  | String _ _, EmptyString => false
  end.

(** [s.endswith(p)] *)
Definition endswith (s p : string) : bool :=
  startswith (String.rev s) (String.rev p).

Definition upper_char (c : ascii) : ascii :=
  let n := nat_of_ascii c in
  if ((97 <=? n) && (n <=? 122))%nat then ascii_of_nat (n - 32)%nat else c.

(** [s.upper()] *)
Fixpoint upper (s : string) : string :=
  match s with
  | String c s' => String (upper_char c) (upper s')
  | EmptyString => EmptyString
  end.

(** [s.split()]: the maximal runs of characters that are not white
    space, in order; [cur] is the run being read, reversed. *)
Fixpoint split_go (cur : option string) (s : string) : list string :=
  match s with
  | EmptyString => option_list (String.rev <$> cur)
  | String c s' =>
      if is_space c
      then option_list (String.rev <$> cur) ++ split_go None s'
      else split_go (Some (String c (default EmptyString cur))) s'
  end.

Definition split : string → list string := split_go None.

(** truth value of a [str]: non-empty *)
Definition truthy (s : string) : bool :=
  match s with EmptyString => false | String _ _ => true end.

End PyStr.

(** ** Python [dict] methods *)

(** [d.setdefault(k, v)], as the dictionary it leaves behind *)
Definition dict_setdefault {V} (d : gmap string V) (k : string) (v : V) : gmap string V :=
  match d !! k with
  | Some _ => d
  | None => <[k := v]> d
  end.

(** [d.get(k, v)] *)
Definition dict_get {V} (d : gmap string V) (k : string) (v : V) : V :=
  default v (d !! k).

(** [d.setdefault(k, []).append(x)], as the dictionary it leaves behind *)
Definition dict_append {V} (d : gmap string (list V)) (k : string) (x : V)
  : gmap string (list V) :=
  alter (λ l, l ++ [x]) k (dict_setdefault d k []).

(** ** Section splitting of the input text *)

Definition SECTION_START : string := "[".

Definition _is_section_header (line : string) : bool :=
  PyStr.startswith (PyStr.strip line) SECTION_START
  && PyStr.endswith (PyStr.strip line) "]".

(** One iteration of the loop of [_read_inp_sections] over the raw lines;
    the state is the dictionary [sections] and the name [current]. *)
Definition read_line (st : gmap string (list string) * string) (raw : string)
  : gmap string (list string) * string :=
  let '(sections, current) := st in
  let line := PyStr.strip raw in
  if negb (PyStr.truthy line) || PyStr.startswith line ";" then st
  else if _is_section_header line then
    let current := PyStr.upper (PyStr.strip_chars "[]" line) in
    (dict_setdefault sections current [], current)
  else if PyStr.truthy current then
    (alter (λ l, l ++ [line]) current sections, current)
  else st.

(** The file is given by the raw lines that iterating over it yields. *)
Definition _read_inp_sections (file : list string) : gmap string (list string) :=
  (foldl read_line (∅, EmptyString) file).1.

(** ** Floating-point numbers

    The program uses [float] for elevations and edge weights: the
    conversion [float(s)], the comparisons [>] and [<], and the literals
    [1.0] and [100.0].  They are an interface here; every result below
    holds for each implementation of it. *)
Class PyFloat := {
  float : Type;
  float_eq_dec :: EqDecision float;
  (** [float(s)]; [None] when it raises [ValueError] *)
  float_of_str : string → option float;
  (** [x > y] *)
  float_gt : float → float → bool;
  (** [x < y] *)
  float_lt : float → float → bool;
  (** the literal [1.0] *)
  float_1 : float;
  (** the literal [100.0] *)
  float_100 : float
}.

Section Pipeline.
Context `{PyFloat}.

(** *** Topology loader *)

(** One iteration of the loop of [get_skip_nodes_from_elevation]. *)
Definition skip_line (elevation_threshold : float)
    (skip_nodes : gset string) (line : string) : gset string :=
  if PyStr.startswith line ";" then skip_nodes
  else match PyStr.split line with
       | p0 :: p1 :: _ =>
           match float_of_str p1 with
           | Some elevation =>
               if float_gt elevation elevation_threshold
               then {[p0]} ∪ skip_nodes
               else skip_nodes
           | None => skip_nodes
           end
       | _ => skip_nodes
       end.

Definition get_skip_nodes_from_elevation (file : list string)
    (elevation_threshold : float) : gset string :=
  let sections := _read_inp_sections file in
  foldl (skip_line elevation_threshold) ∅ (dict_get sections "JUNCTIONS" []).

(** One iteration of the loop of [create_graph_from_inp]. *)
Definition add_pipe (skip_nodes : gset string)
    (node_neighbors : gmap string (list (string * float))) (line : string)
  : gmap string (list (string * float)) :=
  match PyStr.split line with
  | _ :: n1 :: n2 :: _ =>
      if bool_decide (n1 ∈ skip_nodes) || bool_decide (n2 ∈ skip_nodes)
      then node_neighbors
      else dict_append (dict_append node_neighbors n1 (n2, float_1))
                       n2 (n1, float_1)
  | _ => node_neighbors
  end.

Definition create_graph_from_inp (file : list string)
    (elevation_threshold : float)
  : gmap string (list (string * float)) * gmap string float :=
  let sections := _read_inp_sections file in
  let skip_nodes := get_skip_nodes_from_elevation file elevation_threshold in
  (foldl (add_pipe skip_nodes) ∅ (dict_get sections "PIPES" []), ∅).

(** *** Nearest-neighbour resolver *)

(** [min(edges, key=lambda x: x[1])] on the non-empty list
    [first :: rest]: a later edge replaces the best one only when its
    weight is strictly smaller. *)
Definition min_by_weight (first : string * float)
    (rest : list (string * float)) : string * float :=
  foldl (λ best e, if float_lt e.2 best.2 then e else best) first rest.

Definition find_nearest_neighbors
    (graph : gmap string (list (string * float))) : gmap string string :=
  map_fold (λ node_id edges nearest,
              match edges with
              | [] => nearest
              | e :: rest => <[node_id := (min_by_weight e rest).1]> nearest
              end) ∅ graph.

(** *** Sensor selector *)

(** The first loop of [identify_initial_sensor_nodes]. *)
Definition count_targets (nearest : gmap string string) : gmap string nat :=
  map_fold (λ _ n counts, <[n := dict_get counts n 0 + 1]> counts) ∅ nearest.

Definition identify_initial_sensor_nodes (nearest : gmap string string)
  : gset string :=
  map_fold (λ node count sensors,
              if decide (1 < count) then {[node]} ∪ sensors else sensors)
           ∅ (count_targets nearest).

Definition identify_left_out_nodes (nearest : gmap string string)
    (sensors : gset string) : gset string :=
  map_fold (λ node neighbor left_out_nodes,
              if decide (neighbor ∉ sensors)
              then {[node]} ∪ left_out_nodes
              else left_out_nodes) ∅ nearest.

(** The inner loop of [remove_redundant_sensors]: the flag
    [is_redundant] after scanning the edges of one sensor, leaving at
    the first neighbour that is not a sensor. *)
Fixpoint is_redundant (sensors : gset string)
    (edges : list (string * float)) : bool :=
  match edges with
  | [] => true
  | (neighbor, _) :: edges' =>
      if decide (neighbor ∉ sensors) then false
      else is_redundant sensors edges'
  end.

(** The outer loop: the set [redundant], or [None] when [graph[s]]
    raises [KeyError] for some sensor [s]. *)
Definition redundant_sensors (graph : gmap string (list (string * float)))
    (sensors : gset string) : option (gset string) :=
  set_fold (λ s acc,
              redundant ← acc;
              edges ← graph !! s;
              Some (if is_redundant sensors edges
                    then {[s]} ∪ redundant else redundant))
           (Some ∅) sensors.

(** The result is the value of the set [sensors] after
    [difference_update], which the function returns. *)
Definition remove_redundant_sensors
    (graph : gmap string (list (string * float))) (sensors : gset string)
  : option (gset string) :=
  redundant ← redundant_sensors graph sensors;
  Some (sensors ∖ redundant).

(** *** Coverage mapper *)

Definition map_to_sensors (nearest : gmap string string)
    (sensors : gset string) : gmap string string :=
  map_fold (λ node neighbor mapping,
              if decide (node ∉ sensors)
              then <[node := nearest !!! node]> mapping
              else mapping) ∅ nearest.

(** *** The pipeline *)

Definition identify_sensor_nodes (file : list string) : option (gset string) :=
  let node_neighbors := (create_graph_from_inp file float_100).1 in
  let nearest_neighbors := find_nearest_neighbors node_neighbors in
  let initial_sensors := identify_initial_sensor_nodes nearest_neighbors in
  let left_out_nodes := identify_left_out_nodes nearest_neighbors initial_sensors in
  let sensors := initial_sensors ∪ left_out_nodes in
  remove_redundant_sensors node_neighbors sensors.

(** [main] and the route [sensor_allocation] compute the same two
    values, the sensors and the mapping, before printing or returning
    them. *)
Definition main (file : list string)
  : option (gset string * gmap string string) :=
  sensors ← identify_sensor_nodes file;
  let node_neighbors := (create_graph_from_inp file float_100).1 in
  let nearest_neighbors := find_nearest_neighbors node_neighbors in
  sensors ← remove_redundant_sensors node_neighbors sensors;
  let mapping := map_to_sensors nearest_neighbors sensors in
  Some (sensors, mapping).

End Pipeline.

(** ** An implementation of the float interface on exact decimals

    It reads the plain decimal literals ([150.0], [-3], [+0.25]) as
    rationals and serves to run the pipeline on concrete inputs. *)
Module Decimal.

Definition digit (c : ascii) : option Z :=
  let n := nat_of_ascii c in
  if ((48 <=? n) && (n <=? 57))%nat then Some (Z.of_nat (n - 48)) else None.

(** digits read so far as [acc], with [scale] a power of ten counting
    those after the point *)
Fixpoint digits (after_point : bool) (acc : Z) (scale : positive)
    (s : string) : option (Z * positive) :=
  match s with
  | EmptyString => Some (acc, scale)
  | String c s' =>
      if Ascii.eqb c "."%char
      then if after_point then None else digits true acc scale s'
      else d ← digit c;
           digits after_point (10 * acc + d)%Z
                  (if after_point then (10 * scale)%positive else scale) s'
  end.

Definition unsigned (s : string) : option Qc :=
  match s with
  | EmptyString | "." => None
  | _ => '(n, d) ← digits false 0%Z 1%positive s; Some (Q2Qc (Qmake n d))
  end.

Definition of_str (s : string) : option Qc :=
  match s with
  | String "-"%char s' => Qcopp <$> unsigned s'
  | String "+"%char s' => unsigned s'
  | _ => unsigned s
  end.

#[export] Instance decimal_float : PyFloat := {|
  float := Qc;
  float_of_str := of_str;
  float_gt x y := bool_decide (y < x)%Qc;
  float_lt x y := bool_decide (x < y)%Qc;
  float_1 := 1%Qc;
  float_100 := Q2Qc (Qmake 100 1)
|}.

End Decimal.

(** ** Vocabulary of the statements *)

(** No line stored under a section starts with the comment marker. *)
Definition no_comment_lines (sections : gmap string (list string)) : Prop :=
  ∀ k lines line,
    sections !! k = Some lines → line ∈ lines → PyStr.startswith line ";" = false.

(** the nodes that name [t] as their nearest neighbour *)
Definition namers (nearest : gmap string string) (t : string) : gset string :=
  dom (filter (λ kv, kv.2 = t) nearest).

Section Vocabulary.
Context `{PyFloat}.

(** the adjacency list of a node, empty when the node is no key *)
Definition adj (g : gmap string (list (string * float))) (a : string)
  : list (string * float) := dict_get g a [].

(** how many times an entry occurs in an adjacency list *)
Definition occurrences (e : string * float) (l : list (string * float)) : nat :=
  length (filter (λ x, x = e) l).

(** the two appends of one kept pipe record *)
Definition with_edge (g : gmap string (list (string * float)))
    (n1 n2 : string) : gmap string (list (string * float)) :=
  dict_append (dict_append g n1 (n2, float_1)) n2 (n1, float_1).

Definition new_entries (n1 n2 c : string) : list (string * float) :=
  (if decide (n1 = c) then [(n2, float_1)] else [])
  ++ (if decide (n2 = c) then [(n1, float_1)] else []).

(** The properties that every iteration of the loader preserves. *)
Record loader_inv (skip : gset string)
    (g : gmap string (list (string * float))) : Prop := {
  inv_key_kept : ∀ k, is_Some (g !! k) → k ∉ skip;
  inv_neighbor_key : ∀ k n w, (n, w) ∈ adj g k → is_Some (g !! n);
  inv_weight : ∀ k n w, (n, w) ∈ adj g k → w = float_1;
  inv_nonempty : ∀ k, g !! k ≠ Some [];
  inv_symmetric : ∀ a b w,
    occurrences (b, w) (adj g a) = occurrences (a, w) (adj g b)
}.

(** the record [line] puts [node] into the skip set *)
Definition exceeds (thr : float) (line node : string) : Prop :=
  PyStr.startswith line ";" = false
  ∧ ∃ field rest elevation,
      PyStr.split line = node :: field :: rest
      ∧ float_of_str field = Some elevation
      ∧ float_gt elevation thr = true.

(** the entry that one iteration of [find_nearest_neighbors] writes *)
Definition closest_of (edges : list (string * float)) : option string :=
  match edges with
  | [] => None
  | e :: rest => Some (min_by_weight e rest).1
  end.

End Vocabulary.

(** ** Concrete inputs, on the decimal floats *)
Module Samples.
Import Decimal.

(** the path A - B - C *)
Definition path_graph : gmap string (list (string * float)) :=
  <["A" := [("B", float_1)]]>
    (<["B" := [("A", float_1); ("C", float_1)]]>
       (<["C" := [("B", float_1)]]> ∅)).

Definition path_sensors : gset string := {["A"; "B"]}.

(** one pipe between two nodes *)
Definition single_pipe : list string := ["[PIPES]"; "P1 A B"].

(** a pipe from a node to itself *)
Definition loop_pipe : list string := ["[PIPES]"; "P1 A A"].

(** a pipe from a node to itself and a second node joined to it *)
Definition loop_and_pipe : list string := ["[PIPES]"; "P1 A A"; "P2 B A"].

(** the scenario of the elevation filter *)
Definition high_junction : list string :=
  ["[JUNCTIONS]"; "N1 150.0"; "[PIPES]"; "P1 N1 N2"].

End Samples.

(** ** Vocabulary of the further properties *)

(** a raw line that the reader passes over: blank, or a comment *)
Definition ignored_line (raw : string) : bool :=
  negb (PyStr.truthy (PyStr.strip raw))
  || PyStr.startswith (PyStr.strip raw) ";".

(** a raw line that opens a section *)
Definition header_line (raw : string) : bool :=
  negb (ignored_line raw) && _is_section_header (PyStr.strip raw).

(** the section name that a header line selects *)
Definition header_name (raw : string) : string :=
  PyStr.upper (PyStr.strip_chars "[]" (PyStr.strip raw)).

(** every character of the string passes the test *)
Fixpoint all_chars (p : ascii → bool) (s : string) : bool :=
  match s with
  | EmptyString => true
  | String c s' => p c && all_chars p s'
  end.

(** a non-empty string without white space *)
Definition is_token (s : string) : bool :=
  PyStr.truthy s && all_chars (λ c, negb (PyStr.is_space c)) s.

Section FurtherVocabulary.
Context `{PyFloat}.

(** the two endpoints of a pipe record that the loader keeps *)
Definition pipe_ends (skip_nodes : gset string) (line : string)
  : option (string * string) :=
  match PyStr.split line with
  | _ :: n1 :: n2 :: _ =>
      if bool_decide (n1 ∈ skip_nodes) || bool_decide (n2 ∈ skip_nodes)
      then None else Some (n1, n2)
  | _ => None
  end.

(** the kept pipes of a file, in the order of their records *)
Definition kept_pipes (file : list string) (thr : float)
  : list (string * string) :=
  omap (pipe_ends (get_skip_nodes_from_elevation file thr))
       (dict_get (_read_inp_sections file) "PIPES" []).

(** the entries that a list of kept pipes puts into the list of [c] *)
Definition entries_of (pipes : list (string * string)) (c : string)
  : list (string * float) :=
  pipes ≫= (λ ends, new_entries ends.1 ends.2 c).

(** the number of adjacency entries of a graph *)
Definition total_entries (g : gmap string (list (string * float))) : nat :=
  map_fold (λ _ edges n, length edges + n) 0 g.

(** the graph, the nearest map and the sensors before redundancy removal
    that [identify_sensor_nodes] and [main] compute for a file *)
Definition main_graph (file : list string)
  : gmap string (list (string * float)) :=
  (create_graph_from_inp file float_100).1.

Definition main_nearest (file : list string) : gmap string string :=
  find_nearest_neighbors (main_graph file).

Definition candidates (file : list string) : gset string :=
  identify_initial_sensor_nodes (main_nearest file)
  ∪ identify_left_out_nodes (main_nearest file)
      (identify_initial_sensor_nodes (main_nearest file)).

(** the sensors that are left of the candidates after redundancy removal *)
Definition kept_of_candidates (file : list string) (sensors : gset string)
  : Prop :=
  ∀ s, s ∈ sensors ↔
       s ∈ candidates file
       ∧ ∃ edges n w, main_graph file !! s = Some edges
                      ∧ (n, w) ∈ edges ∧ n ∉ candidates file.

End FurtherVocabulary.

(** ** Further concrete inputs, on the decimal floats *)
Module MoreSamples.
Import Decimal.

(** a stray record ahead of the first section *)
Definition stray_record : list string := ["P0 X Y"].

(** two pipes that meet in B *)
Definition two_pipes : list string := ["[PIPES]"; "P1 A B"; "P2 B C"].

(** a junction above the threshold at the end of a chain of two pipes *)
Definition chain_with_high_end : list string :=
  ["[JUNCTIONS]"; "N1 150.0"; "N2 20.0"; "[PIPES]"; "P1 N1 N2"; "P2 N2 N3"].

(** a nearest map in which A and C name B, and B names A *)
Definition star_nearest : gmap string string :=
  <["A" := "B"]> (<["B" := "A"]> (<["C" := "B"]> ∅)).

End MoreSamples.

(** * Properties *)

(** ** Dictionaries and loops *)

Lemma foldl_invariant {A B} (P : A → Prop) (f : A → B → A) (l : list B) (a : A) :
  P a → (∀ a b, b ∈ l → P a → P (f a b)) → P (foldl f a l).
Proof.
  revert a. induction l as [|b l IH]; intros a Ha Hstep; simpl; [done|].
  apply IH.
  - apply Hstep; [left | done].
  - intros a' b' Hb'. apply Hstep. by right.
Qed.

Lemma lookup_dict_setdefault {V} (d : gmap string V) k v j :
  dict_setdefault d k v !! j
  = if decide (k = j) then Some (dict_get d k v) else d !! j.
Proof.
  unfold dict_setdefault, dict_get.
  destruct (d !! k) as [x|] eqn:Hk; case_decide; subst; simpl;
    rewrite ?lookup_insert_eq, ?lookup_insert_ne by done; done.
Qed.

Lemma lookup_dict_append {V} (d : gmap string (list V)) k x j :
  dict_append d k x !! j
  = if decide (k = j) then Some (dict_get d k [] ++ [x]) else d !! j.
Proof.
  unfold dict_append. rewrite lookup_alter.
  case_decide as Hkj; rewrite lookup_dict_setdefault.
  - by rewrite decide_True.
  - by rewrite decide_False.
Qed.

Lemma dict_get_dict_append {V} (d : gmap string (list V)) k x j :
  dict_get (dict_append d k x) j []
  = if decide (k = j) then dict_get d k [] ++ [x] else dict_get d j [].
Proof.
  unfold dict_get at 1. rewrite lookup_dict_append. by case_decide.
Qed.

Lemma dict_get_Some {V} (d : gmap string V) k v x :
  d !! k = Some x → dict_get d k v = x.
Proof. unfold dict_get. by intros ->. Qed.

Lemma dict_get_empty {V} k (v : V) : dict_get ∅ k v = v.
Proof. unfold dict_get. by rewrite lookup_empty. Qed.

(** ** The graph built by the loader *)

Section Loader.
Context `{PyFloat}.

Lemma adj_with_edge g n1 n2 c :
  adj (with_edge g n1 n2) c = adj g c ++ new_entries n1 n2 c.
Proof.
  unfold adj, with_edge, new_entries.
  rewrite !dict_get_dict_append.
  repeat case_decide; simplify_eq; simpl;
    rewrite ?app_nil_r, <-?app_assoc; done.
Qed.

Lemma lookup_with_edge g n1 n2 c :
  with_edge g n1 n2 !! c
  = if decide (n1 = c ∨ n2 = c) then Some (adj (with_edge g n1 n2) c)
    else g !! c.
Proof.
  unfold adj, dict_get, with_edge. rewrite !lookup_dict_append.
  repeat case_decide; simplify_eq; naive_solver.
Qed.

Lemma lookup_with_edge_Some g n1 n2 c edges :
  with_edge g n1 n2 !! c = Some edges →
  edges = adj g c ++ new_entries n1 n2 c
  ∧ (n1 = c ∨ n2 = c ∨ g !! c = Some edges).
Proof.
  rewrite lookup_with_edge. case_decide as Hc.
  - intros [= <-]. rewrite adj_with_edge. naive_solver.
  - intros Hg. unfold new_entries. rewrite !decide_False by naive_solver.
    unfold adj. rewrite (dict_get_Some _ _ _ _ Hg), app_nil_r. naive_solver.
Qed.

Lemma elem_of_new_entries n1 n2 c n w :
  (n, w) ∈ new_entries n1 n2 c ↔
  w = float_1 ∧ ((n1 = c ∧ n = n2) ∨ (n2 = c ∧ n = n1)).
Proof.
  unfold new_entries. rewrite elem_of_app.
  repeat case_decide; rewrite ?elem_of_nil, ?list_elem_of_singleton;
    naive_solver.
Qed.

Lemma elem_of_adj g k edges e :
  g !! k = Some edges → e ∈ edges → e ∈ adj g k.
Proof. intros Hk He. unfold adj. by rewrite (dict_get_Some _ _ _ _ Hk). Qed.

Lemma elem_of_adj_inv g k e :
  e ∈ adj g k → ∃ edges, g !! k = Some edges ∧ e ∈ edges.
Proof.
  unfold adj, dict_get. destruct (g !! k) as [edges|]; simpl.
  - eauto.
  - by intros ?%elem_of_nil.
Qed.

(** what one iteration over the pipe records does *)
Lemma add_pipe_cases skip g line :
  add_pipe skip g line = g
  ∨ ∃ p n1 n2 rest,
      PyStr.split line = p :: n1 :: n2 :: rest
      ∧ (n1 ∉ skip) ∧ (n2 ∉ skip)
      ∧ add_pipe skip g line = with_edge g n1 n2.
Proof.
  unfold add_pipe.
  destruct (PyStr.split line) as [|p [|n1 [|n2 rest]]]; try by left.
  destruct (bool_decide (n1 ∈ skip)) eqn:H1; simpl; [by left|].
  destruct (bool_decide (n2 ∈ skip)) eqn:H2; simpl; [by left|].
  apply bool_decide_eq_false in H1, H2.
  right. by exists p, n1, n2, rest.
Qed.

Lemma loader_inv_empty skip : loader_inv skip ∅.
Proof.
  split.
  - intros k [? Hk]. by rewrite lookup_empty in Hk.
  - intros k n w. unfold adj. rewrite dict_get_empty. by intros ?%elem_of_nil.
  - intros k n w. unfold adj. rewrite dict_get_empty. by intros ?%elem_of_nil.
  - intros k. by rewrite lookup_empty.
  - intros a b w. unfold adj. by rewrite !dict_get_empty.
Qed.

Lemma occurrences_app e l1 l2 :
  occurrences e (l1 ++ l2) = occurrences e l1 + occurrences e l2.
Proof. unfold occurrences. by rewrite filter_app, length_app. Qed.

Lemma occurrences_new_entries n1 n2 a b w :
  occurrences (b, w) (new_entries n1 n2 a)
  = occurrences (a, w) (new_entries n1 n2 b).
Proof.
  unfold occurrences, new_entries. rewrite !filter_app, !length_app.
  assert (Hone : ∀ (P : Prop) `{!Decision P} (x e : string * float),
    length (filter (λ y, y = e) (if decide P then [x] else []))
    = if decide (P ∧ x = e) then 1 else 0).
  { intros P ? x e. destruct (decide P) as [HP|HP].
    - rewrite filter_cons, filter_nil.
      destruct (decide (x = e)); [by rewrite decide_True|by rewrite decide_False by tauto].
    - rewrite filter_nil. by rewrite decide_False by tauto. }
  rewrite !Hone.
  repeat case_decide; simplify_eq; naive_solver.
Qed.

Lemma loader_inv_with_edge skip g n1 n2 :
  n1 ∉ skip → n2 ∉ skip → loader_inv skip g → loader_inv skip (with_edge g n1 n2).
Proof.
  intros H1 H2 [Hkey Hnb Hw Hne Hsym]. split.
  - intros k. rewrite lookup_with_edge. case_decide; naive_solver.
  - intros k n w. rewrite adj_with_edge, elem_of_app, elem_of_new_entries.
    rewrite lookup_with_edge. case_decide; [done|].
    intros [Hin|?]; [by eapply Hnb | naive_solver].
  - intros k n w. rewrite adj_with_edge, elem_of_app, elem_of_new_entries.
    intros [Hin|?]; [by eapply Hw | naive_solver].
  - intros k Hk. apply lookup_with_edge_Some in Hk as [Hk Hc].
    symmetry in Hk. apply app_eq_nil in Hk as [Ha Hnew].
    unfold new_entries in Hnew.
    destruct Hc as [<-|[<-|Hc]].
    + by rewrite decide_True in Hnew.
    + rewrite (decide_True (P := n2 = n2)) in Hnew by done.
      by apply app_eq_nil in Hnew as [_ ?].
    + by apply Hne in Hc.
  - intros a b w. rewrite !adj_with_edge, !occurrences_app.
    by rewrite Hsym, occurrences_new_entries.
Qed.

Lemma loader_inv_add_pipe skip g line :
  loader_inv skip g → loader_inv skip (add_pipe skip g line).
Proof.
  intros Hg.
  destruct (add_pipe_cases skip g line) as [->|(p&n1&n2&rest&_&H1&H2&->)];
    [done | by apply loader_inv_with_edge].
Qed.

Lemma loader_inv_create_graph file thr :
  loader_inv (get_skip_nodes_from_elevation file thr)
             (create_graph_from_inp file thr).1.
Proof.
  unfold create_graph_from_inp; simpl.
  apply foldl_invariant; [apply loader_inv_empty|].
  intros g line _. apply loader_inv_add_pipe.
Qed.

End Loader.

(** ** Section lines and the skip set *)

Lemma read_line_no_comment st raw :
  no_comment_lines st.1 → no_comment_lines (read_line st raw).1.
Proof.
  destruct st as [sections current]; simpl. intros Hinv.
  destruct (PyStr.truthy (PyStr.strip raw)); simpl; [|done].
  destruct (PyStr.startswith (PyStr.strip raw) ";") eqn:Hcomment; [done|].
  destruct (_is_section_header (PyStr.strip raw)); simpl.
  - intros k lines line. rewrite lookup_dict_setdefault. case_decide.
    + intros [= <-]. unfold dict_get.
      destruct (sections !! _) as [old|] eqn:Hold; simpl.
      * by apply (Hinv _ _ _ Hold).
      * by intros ?%elem_of_nil.
    + apply Hinv.
  - destruct (PyStr.truthy current); simpl; [|done].
    intros k lines line. rewrite lookup_alter. case_decide as Hk.
    + destruct (sections !! current) as [old|] eqn:Hold; simpl; [|done].
      intros [= <-]. rewrite elem_of_app, list_elem_of_singleton.
      intros [Hin| ->]; [by eapply Hinv | done].
    + apply Hinv.
Qed.

Lemma read_inp_sections_no_comment file :
  no_comment_lines (_read_inp_sections file).
Proof.
  unfold _read_inp_sections.
  apply (foldl_invariant (λ st, no_comment_lines st.1)).
  - intros k lines line; simpl. by rewrite lookup_empty.
  - intros st raw _. apply read_line_no_comment.
Qed.

Lemma section_line_no_comment file name line :
  line ∈ dict_get (_read_inp_sections file) name [] →
  PyStr.startswith line ";" = false.
Proof.
  unfold dict_get.
  destruct (_read_inp_sections file !! name) as [lines|] eqn:Hname; simpl.
  - by apply (read_inp_sections_no_comment file name lines).
  - by intros ?%elem_of_nil.
Qed.

Section SkipSet.
Context `{PyFloat}.

Lemma skip_line_mono thr skip line : skip ⊆ skip_line thr skip line.
Proof.
  unfold skip_line. repeat case_match; set_solver.
Qed.

Lemma skip_line_exceeds thr skip line node :
  exceeds thr line node → node ∈ skip_line thr skip line.
Proof.
  intros (Hc & field & rest & elevation & Hsplit & Hparse & Hgt).
  unfold skip_line. rewrite Hc, Hsplit, Hparse, Hgt. set_solver.
Qed.

Lemma elem_of_foldl_skip_line thr lines skip node :
  node ∈ foldl (skip_line thr) skip lines ↔
  node ∈ skip ∨ ∃ line, line ∈ lines ∧ exceeds thr line node.
Proof.
  revert skip. induction lines as [|l lines IH]; intros skip; simpl.
  - split; [by left|]. intros [?|(?&?%elem_of_nil&_)]; done.
  - rewrite IH. split.
    + intros [Hin|(line & Hline & Hex)].
      * unfold skip_line in Hin.
        destruct (PyStr.startswith l ";") eqn:Hc; [by left|].
        destruct (PyStr.split l) as [|p0 [|p1 rest]] eqn:Hsplit; try by left.
        destruct (float_of_str p1) as [elevation|] eqn:Hparse; [|by left].
        destruct (float_gt elevation thr) eqn:Hgt; [|by left].
        apply elem_of_union in Hin as [->%elem_of_singleton|?]; [|by left].
        right. exists l. split; [left|]. split; [done|]. by exists p1, rest, elevation.
      * right. exists line. split; [by right | done].
    + intros [Hin|(line & Hline & Hex)].
      * left. by apply skip_line_mono.
      * apply elem_of_cons in Hline as [->|Hline].
        -- left. by apply skip_line_exceeds.
        -- right. eauto.
Qed.

(** The skip set holds exactly the nodes of the junction records whose
    second field parses to an elevation above the threshold. *)
Lemma elem_of_get_skip_nodes file thr node :
  node ∈ get_skip_nodes_from_elevation file thr ↔
  ∃ line field rest elevation,
    line ∈ dict_get (_read_inp_sections file) "JUNCTIONS" []
    ∧ PyStr.split line = node :: field :: rest
    ∧ float_of_str field = Some elevation
    ∧ float_gt elevation thr = true.
Proof.
  unfold get_skip_nodes_from_elevation; simpl.
  rewrite elem_of_foldl_skip_line. split.
  - intros [?%not_elem_of_empty|(line & Hline & _ & field & rest & e & ?)]; [done|].
    by exists line, field, rest, e.
  - intros (line & field & rest & e & Hline & ?). right. exists line.
    split; [done|]. split; [by eapply section_line_no_comment|].
    by exists field, rest, e.
Qed.

End SkipSet.

(** ** Nearest neighbours *)

Section Resolver.
Context `{PyFloat}.

Lemma min_by_weight_elem first rest :
  min_by_weight first rest ∈ first :: rest.
Proof.
  unfold min_by_weight. revert first.
  induction rest as [|e rest IH]; intros first; simpl; [left|].
  destruct (float_lt e.2 first.2).
  - right. apply IH.
  - specialize (IH first). apply elem_of_cons in IH as [->|?];
      [left | right; by right].
Qed.

Lemma closest_of_elem edges n :
  closest_of edges = Some n → ∃ w, (n, w) ∈ edges.
Proof.
  destruct edges as [|e rest]; simpl; [done|]. intros [= <-].
  exists (min_by_weight e rest).2. rewrite <-surjective_pairing.
  apply min_by_weight_elem.
Qed.

Lemma lookup_find_nearest_neighbors graph k :
  find_nearest_neighbors graph !! k = graph !! k ≫= closest_of.
Proof.
  unfold find_nearest_neighbors.
  apply (map_fold_weak_ind
           (λ nearest g, nearest !! k = g !! k ≫= closest_of)).
  - by rewrite !lookup_empty.
  - intros i edges g nearest Hi IH.
    destruct (decide (i = k)) as [->|Hne].
    + rewrite lookup_insert_eq; simpl.
      destruct edges as [|e rest]; simpl.
      * by rewrite IH, Hi.
      * by rewrite lookup_insert_eq.
    + rewrite (lookup_insert_ne g) by done. rewrite <-IH.
      destruct edges; [done|]. by rewrite lookup_insert_ne.
Qed.

Lemma find_nearest_neighbors_Some graph k n :
  find_nearest_neighbors graph !! k = Some n →
  ∃ edges w, graph !! k = Some edges ∧ (n, w) ∈ edges.
Proof.
  rewrite lookup_find_nearest_neighbors.
  destruct (graph !! k) as [edges|]; simpl; [|done].
  intros [w Hw]%closest_of_elem. eauto.
Qed.

Lemma find_nearest_neighbors_is_Some graph k edges :
  graph !! k = Some edges → edges ≠ [] →
  is_Some (find_nearest_neighbors graph !! k).
Proof.
  intros Hk Hne. rewrite lookup_find_nearest_neighbors, Hk; simpl.
  destruct edges; [done | by eexists].
Qed.

End Resolver.

(** ** Sensor selection *)

Lemma elem_of_namers nearest t k :
  k ∈ namers nearest t ↔ nearest !! k = Some t.
Proof.
  unfold namers. rewrite elem_of_dom. unfold is_Some.
  setoid_rewrite map_lookup_filter_Some. naive_solver.
Qed.

Lemma namers_empty t : namers ∅ t = ∅.
Proof. unfold namers. by rewrite map_filter_empty, dom_empty_L. Qed.

Lemma namers_insert nearest i x t :
  nearest !! i = None →
  namers (<[i:=x]> nearest) t
  = if decide (x = t) then {[i]} ∪ namers nearest t else namers nearest t.
Proof.
  intros Hi. apply set_eq. intros k.
  case_decide; rewrite ?elem_of_union, ?elem_of_singleton, !elem_of_namers;
    destruct (decide (i = k)) as [->|];
    rewrite ?lookup_insert_eq, ?lookup_insert_ne by done; naive_solver.
Qed.

Lemma size_namers_insert nearest i x t :
  nearest !! i = None →
  size (namers (<[i:=x]> nearest) t)
  = if decide (x = t) then S (size (namers nearest t)) else size (namers nearest t).
Proof.
  intros Hi. rewrite namers_insert by done. case_decide; [|done].
  rewrite size_union, size_singleton; [done|].
  apply disjoint_singleton_l. rewrite elem_of_namers. congruence.
Qed.

(** The counter of a node is the number of nodes that name it; nodes that
    nobody names have no counter. *)
Lemma lookup_count_targets nearest t :
  count_targets nearest !! t
  = if decide (size (namers nearest t) = 0) then None
    else Some (size (namers nearest t)).
Proof.
  unfold count_targets. revert t.
  induction nearest as [|i x m Hi Hfirst IH] using map_first_key_ind; intros t.
  - by rewrite map_fold_empty, namers_empty, size_empty, lookup_empty.
  - rewrite map_fold_insert_first_key by done.
    rewrite size_namers_insert by done.
    destruct (decide (x = t)) as [->|Hne].
    + rewrite lookup_insert_eq. unfold dict_get. rewrite IH.
      rewrite (decide_False (P := S _ = 0)) by lia. case_decide as Hz; simpl.
      * rewrite Hz. f_equal.
      * f_equal. lia.
    + rewrite lookup_insert_ne by done. apply IH.
Qed.

Lemma elem_of_identify_initial_sensor_nodes nearest t :
  t ∈ identify_initial_sensor_nodes nearest ↔ 1 < size (namers nearest t).
Proof.
  unfold identify_initial_sensor_nodes.
  transitivity (∃ c, count_targets nearest !! t = Some c ∧ 1 < c).
  - generalize (count_targets nearest). intros counts.
    apply (map_fold_weak_ind
             (λ sensors m, t ∈ sensors ↔ ∃ c, m !! t = Some c ∧ 1 < c)).
    + rewrite elem_of_empty. split; [done|].
      intros (c & Hc & _). by rewrite lookup_empty in Hc.
    + intros i c m sensors Hi IH.
      destruct (decide (i = t)) as [->|Hne].
      * rewrite lookup_insert_eq. case_decide.
        -- split; [eauto | set_solver].
        -- rewrite IH, Hi. naive_solver.
      * rewrite lookup_insert_ne by done. rewrite <-IH.
        case_decide; set_solver.
  - rewrite lookup_count_targets. case_decide as Hz.
    + rewrite Hz. split; [by intros (?&?&?) | lia].
    + split; [by intros (c & [= <-] & ?) | eauto].
Qed.

Lemma elem_of_identify_left_out_nodes nearest sensors k :
  k ∈ identify_left_out_nodes nearest sensors ↔
  ∃ n, nearest !! k = Some n ∧ n ∉ sensors.
Proof.
  unfold identify_left_out_nodes.
  apply (map_fold_weak_ind
           (λ left m, k ∈ left ↔ ∃ n, m !! k = Some n ∧ n ∉ sensors)).
  - rewrite elem_of_empty. split; [done|].
    intros (n & Hn & _). by rewrite lookup_empty in Hn.
  - intros i n m left Hi IH.
    destruct (decide (i = k)) as [->|Hne].
    + rewrite lookup_insert_eq. case_decide.
      * split; [eauto | set_solver].
      * rewrite IH, Hi. naive_solver.
    + rewrite lookup_insert_ne by done. rewrite <-IH.
      case_decide; set_solver.
Qed.

Section Pruning.
Context `{PyFloat}.

Lemma is_redundant_true sensors edges :
  is_redundant sensors edges = true ↔ ∀ n w, (n, w) ∈ edges → n ∈ sensors.
Proof.
  induction edges as [|[n' w'] edges IH]; simpl.
  - split; [|done]. by intros _ n w ?%elem_of_nil.
  - case_decide as Hn'.
    + split; [done|]. intros Hall. destruct Hn'. apply (Hall n' w'). left.
    + rewrite IH. split.
      * intros Hall n w [[= -> ->]|Hin]%elem_of_cons; [done | by eapply Hall].
      * intros Hall n w Hin. apply (Hall n w). by right.
Qed.

Lemma is_redundant_false sensors edges :
  is_redundant sensors edges = false ↔
  ∃ n w, (n, w) ∈ edges ∧ n ∉ sensors.
Proof.
  induction edges as [|[n' w'] edges IH]; simpl.
  - split; [done|]. by intros (n & w & ?%elem_of_nil & _).
  - case_decide as Hn'.
    + split; [|done]. intros _. exists n', w'. split; [left | done].
    + rewrite IH. split.
      * intros (n & w & Hin & Hn). exists n, w. split; [by right | done].
      * intros (n & w & [[= -> ->]|Hin]%elem_of_cons & Hn); [done | eauto].
Qed.

(** The outer loop, over any part [X] of the sensors, with the tests
    made against the whole set [all]. *)
Lemma redundant_loop_spec (graph : gmap string (list (string * float)))
    (all X : gset string) :
  match set_fold (λ s acc,
                    redundant ← acc;
                    edges ← graph !! s;
                    Some (if is_redundant all edges
                          then {[s]} ∪ redundant else redundant))
                 (Some (∅ : gset string)) X with
  | Some redundant =>
      (∀ s, s ∈ X → is_Some (graph !! s))
      ∧ ∀ s, s ∈ redundant ↔
             s ∈ X ∧ ∃ edges, graph !! s = Some edges
                              ∧ is_redundant all edges = true
  | None => ∃ s, s ∈ X ∧ graph !! s = None
  end.
Proof.
  apply (set_fold_ind_L (λ (r : option (gset string)) (X : gset string),
    match r with
    | Some redundant =>
        (∀ s, s ∈ X → is_Some (graph !! s))
        ∧ ∀ s, s ∈ redundant ↔
               s ∈ X ∧ ∃ edges, graph !! s = Some edges
                                ∧ is_redundant all edges = true
    | None => ∃ s, s ∈ X ∧ graph !! s = None
    end)).
  - split; [set_solver|]. intros s. set_solver.
  - intros x Y [redundant|] Hx IH; simpl.
    + destruct IH as [Hkeys Hred].
      destruct (graph !! x) as [edges|] eqn:Hgx; simpl.
      * split.
        { intros s [->%elem_of_singleton|?]%elem_of_union; [by eexists | auto]. }
        intros s. destruct (is_redundant all edges) eqn:Hr.
        -- rewrite !elem_of_union, elem_of_singleton, Hred. split.
           ++ intros [->|(?&?)]; [|by auto]. split; [by left | eauto].
           ++ intros [[->|?] ?]; [by left | by right].
        -- rewrite Hred, elem_of_union, elem_of_singleton. split.
           ++ intros [? ?]. split; [by right | done].
           ++ intros [[->|?] (edges' & Hedges' & Hr')]; [|eauto].
              congruence.
      * exists x. split; [set_solver | done].
    + destruct IH as (s & Hs & Hgs). exists s. split; [set_solver | done].
Qed.

Lemma remove_redundant_sensors_None graph sensors :
  remove_redundant_sensors graph sensors = None ↔
  ∃ s, s ∈ sensors ∧ graph !! s = None.
Proof.
  unfold remove_redundant_sensors, redundant_sensors.
  pose proof (redundant_loop_spec graph sensors sensors) as Hloop.
  destruct (set_fold _ _ sensors) as [redundant|]; simpl.
  - split; [done|]. intros (s & Hs & Hgs).
    destruct Hloop as [Hkeys _]. apply Hkeys in Hs as [? ?]. congruence.
  - done.
Qed.

Lemma remove_redundant_sensors_Some graph sensors pruned :
  remove_redundant_sensors graph sensors = Some pruned →
  ∀ s, s ∈ pruned ↔
       s ∈ sensors ∧ ∃ edges n w, graph !! s = Some edges
                                  ∧ (n, w) ∈ edges ∧ n ∉ sensors.
Proof.
  unfold remove_redundant_sensors, redundant_sensors.
  pose proof (redundant_loop_spec graph sensors sensors) as Hloop.
  destruct (set_fold _ _ sensors) as [redundant|]; simpl; [|done].
  destruct Hloop as [Hkeys Hred]. intros [= <-] s.
  rewrite elem_of_difference, Hred. split.
  - intros [Hs Hnot]. split; [done|].
    destruct (Hkeys s Hs) as [edges Hedges].
    destruct (is_redundant sensors edges) eqn:Hr.
    + destruct Hnot. eauto.
    + apply is_redundant_false in Hr as (n & w & ? & ?). by exists edges, n, w.
  - intros [Hs (edges & n & w & Hedges & Hin & Hn)]. split; [done|].
    intros [_ (edges' & Hedges' & Hr)]. simplify_eq.
    rewrite is_redundant_true in Hr. by apply Hr in Hin.
Qed.

Lemma remove_redundant_sensors_is_Some graph sensors :
  (∀ s, s ∈ sensors → is_Some (graph !! s)) →
  is_Some (remove_redundant_sensors graph sensors).
Proof.
  intros Hkeys.
  destruct (remove_redundant_sensors graph sensors) as [pruned|] eqn:Hrun;
    [by eexists|].
  apply remove_redundant_sensors_None in Hrun as (s & Hs & Hgs).
  apply Hkeys in Hs as [? ?]. congruence.
Qed.

End Pruning.

(** ** Coverage mapping *)

Lemma lookup_map_to_sensors nearest sensors k :
  map_to_sensors nearest sensors !! k
  = if decide (k ∉ sensors) then nearest !! k else None.
Proof.
  unfold map_to_sensors.
  cut (∀ m, m ⊆ nearest →
         map_fold (λ node neighbor mapping,
                     if decide (node ∉ sensors)
                     then <[node := nearest !!! node]> mapping
                     else mapping) (∅ : gmap string string) m !! k
         = if decide (k ∉ sensors) then m !! k else None).
  { intros Hgen. by apply Hgen. }
  intros m. induction m as [|i x m Hi Hfirst IH] using map_first_key_ind;
    intros Hsub.
  - rewrite map_fold_empty, lookup_empty. by case_decide.
  - rewrite map_fold_insert_first_key by done.
    assert (nearest !! i = Some x) as Hix.
    { eapply lookup_weaken; [apply lookup_insert_eq | done]. }
    assert (m ⊆ nearest) as Hm.
    { etrans; [by apply insert_subseteq | done]. }
    specialize (IH Hm).
    destruct (decide (i ∉ sensors)) as [Hin|Hin].
    + rewrite (lookup_total_correct _ _ _ Hix).
      destruct (decide (i = k)) as [->|Hne].
      * rewrite !lookup_insert_eq. by rewrite decide_True.
      * by rewrite !lookup_insert_ne.
    + rewrite IH. case_decide as Hk; [|done].
      rewrite lookup_insert_ne; [done|]. by intros ->.
Qed.

(** * The claims *)

Section Claims.
Context `{PyFloat}.

Lemma subseteq_dom_is_Some (graph : gmap string (list (string * float)))
    (sensors : gset string) :
  sensors ⊆ dom graph → ∀ s, s ∈ sensors → is_Some (graph !! s).
Proof. intros Hsub s Hs. apply elem_of_dom. by apply Hsub. Qed.

(** C4: redundancy removal is idempotent.  For every graph and every
    sensor set whose members are all keys of the graph, the call returns
    a set, and the call on that set returns the very same set. *)
Theorem remove_redundant_sensors_idempotent
    (graph : gmap string (list (string * float))) (sensors : gset string) :
  sensors ⊆ dom graph →
  ∃ pruned,
    remove_redundant_sensors graph sensors = Some pruned
    ∧ remove_redundant_sensors graph pruned = Some pruned.
Proof.
  intros Hsub. pose proof (subseteq_dom_is_Some _ _ Hsub) as Hkeys.
  destruct (remove_redundant_sensors_is_Some graph sensors Hkeys)
    as [pruned Hrun].
  exists pruned. split; [done|].
  pose proof (remove_redundant_sensors_Some _ _ _ Hrun) as Hpruned.
  assert (∀ s, s ∈ pruned → is_Some (graph !! s)) as Hkeys'.
  { intros s Hs. apply Hkeys. by apply Hpruned in Hs as [? _]. }
  destruct (remove_redundant_sensors_is_Some graph pruned Hkeys')
    as [again Hagain].
  rewrite Hagain. f_equal. apply set_eq. intros s.
  rewrite (remove_redundant_sensors_Some _ _ _ Hagain s). split.
  - by intros [? _].
  - intros Hs. split; [done|].
    pose proof Hs as Hs'.
    apply Hpruned in Hs' as [_ (edges & n & w & Hedges & Hin & Hn)].
    exists edges, n, w. split_and!; [done..|].
    intros Hn'. by apply Hpruned in Hn' as [? _].
Qed.

(** C5: the post-condition of redundancy removal.  When the members of
    the sensor set are keys of the graph the call returns a set in which
    every sensor has a neighbour in the graph outside the returned set,
    from which every sensor with an empty adjacency list is gone, and
    whose members are the sensors with a neighbour outside the set as it
    was before the pass. *)
Theorem remove_redundant_sensors_postcondition
    (graph : gmap string (list (string * float))) (sensors : gset string) :
  sensors ⊆ dom graph →
  ∃ pruned,
    remove_redundant_sensors graph sensors = Some pruned
    ∧ (∀ s edges, s ∈ pruned → graph !! s = Some edges →
         ∃ n w, (n, w) ∈ edges ∧ n ∉ pruned)
    ∧ (∀ s, graph !! s = Some [] → s ∉ pruned)
    ∧ (∀ s, s ∈ pruned ↔
            s ∈ sensors
            ∧ ∃ edges n w, graph !! s = Some edges
                           ∧ (n, w) ∈ edges ∧ n ∉ sensors).
Proof.
  intros Hsub. pose proof (subseteq_dom_is_Some _ _ Hsub) as Hkeys.
  destruct (remove_redundant_sensors_is_Some graph sensors Hkeys)
    as [pruned Hrun].
  pose proof (remove_redundant_sensors_Some _ _ _ Hrun) as Hpruned.
  exists pruned. split_and!; [done| | |done].
  - intros s edges Hs Hedges.
    apply Hpruned in Hs as [_ (edges' & n & w & Hedges' & Hin & Hn)].
    simplify_eq. exists n, w. split; [done|].
    intros Hn'. by apply Hpruned in Hn' as [? _].
  - intros s Hempty Hs.
    apply Hpruned in Hs as [_ (edges' & n & w & Hedges' & Hin & _)].
    simplify_eq. by apply elem_of_nil in Hin.
Qed.

(** C10: pruning only removes.  When the members of the sensor set are
    keys of the graph the call returns a subset of the set it was given. *)
Theorem remove_redundant_sensors_subset
    (graph : gmap string (list (string * float))) (sensors : gset string) :
  sensors ⊆ dom graph →
  ∃ pruned,
    remove_redundant_sensors graph sensors = Some pruned
    ∧ pruned ⊆ sensors.
Proof.
  intros Hsub. pose proof (subseteq_dom_is_Some _ _ Hsub) as Hkeys.
  destruct (remove_redundant_sensors_is_Some graph sensors Hkeys)
    as [pruned Hrun].
  exists pruned. split; [done|]. intros s Hs.
  by apply (remove_redundant_sensors_Some _ _ _ Hrun) in Hs as [? _].
Qed.

(** C6: coverage completeness.  The keys of the mapping are the keys of
    the nearest map outside the sensor set, each bound to its nearest
    neighbour, so a node of the nearest map is either a sensor or a key
    of the mapping, and never both. *)
Theorem map_to_sensors_complete
    (nearest : gmap string string) (sensors : gset string) :
  let mapping := map_to_sensors nearest sensors in
  dom mapping = dom nearest ∖ sensors
  ∧ (∀ node, node ∈ dom mapping → mapping !! node = nearest !! node)
  ∧ (∀ node, node ∈ dom nearest →
       (node ∈ sensors ∧ node ∉ dom mapping)
       ∨ ((node ∉ sensors) ∧ node ∈ dom mapping)).
Proof.
  simpl.
  assert (∀ node, node ∈ dom (map_to_sensors nearest sensors) ↔
                  node ∈ dom nearest ∧ node ∉ sensors) as Hdom.
  { intros node. rewrite !elem_of_dom, lookup_map_to_sensors.
    case_decide; [naive_solver|].
    split; [by intros [? ?] | naive_solver]. }
  split_and!.
  - apply set_eq. intros node. rewrite Hdom. set_solver.
  - intros node [_ Hnode]%Hdom. rewrite lookup_map_to_sensors.
    by rewrite decide_True.
  - intros node Hnode. rewrite Hdom.
    destruct (decide (node ∈ sensors)); [left | right]; naive_solver.
Qed.

Lemma occurrences_pos e (l : list (string * float)) :
  0 < occurrences e l ↔ e ∈ l.
Proof.
  unfold occurrences. induction l as [|x l IH].
  - rewrite filter_nil, elem_of_nil; simpl. lia.
  - rewrite filter_cons, elem_of_cons. case_decide; simpl.
    + split; [by left | lia].
    + rewrite IH. naive_solver.
Qed.

(** C8: symmetry of the loader's graph.  Whenever [(b, w)] occurs in
    the adjacency list of [a], the node [b] is a key, [(a, w)] occurs in
    its adjacency list as many times as [(b, w)] occurs in that of [a],
    and [w] is 1.0. *)
Theorem create_graph_symmetric (file : list string) (thr : float)
    (a b : string) (w : float) (edges : list (string * float)) :
  (create_graph_from_inp file thr).1 !! a = Some edges →
  (b, w) ∈ edges →
  ∃ edges',
    (create_graph_from_inp file thr).1 !! b = Some edges'
    ∧ (a, w) ∈ edges'
    ∧ occurrences (a, w) edges' = occurrences (b, w) edges
    ∧ w = float_1.
Proof.
  intros Ha Hin.
  destruct (loader_inv_create_graph file thr) as [_ Hnb Hw _ Hsym].
  pose proof (elem_of_adj _ _ _ _ Ha Hin) as Hadj.
  destruct (Hnb a b w Hadj) as [edges' Hb]. exists edges'.
  specialize (Hsym a b w). unfold adj in Hsym.
  rewrite (dict_get_Some _ _ _ _ Ha), (dict_get_Some _ _ _ _ Hb) in Hsym.
  split_and!; [done| |done|by eapply Hw].
  apply occurrences_pos. rewrite <-Hsym. by apply occurrences_pos.
Qed.

(** C7: elevation exclusion.  A node of a junction record whose second
    field parses to an elevation above the threshold is no key of the
    loader's graph and occurs in no adjacency list, and a pipe record
    with that node as an endpoint leaves the graph under construction
    as it is.  With the junction record "N1 150.0", the threshold 100.0
    and the pipe record "P1 N1 N2" the graph is empty: it has neither N1
    nor N2. *)
Theorem elevation_exclusion (file : list string) (thr : float) :
  (∀ record node field rest elevation,
      record ∈ dict_get (_read_inp_sections file) "JUNCTIONS" [] →
      PyStr.split record = node :: field :: rest →
      float_of_str field = Some elevation →
      float_gt elevation thr = true →
      (create_graph_from_inp file thr).1 !! node = None
      ∧ (∀ k edges w, (create_graph_from_inp file thr).1 !! k = Some edges →
           (node, w) ∉ edges)
      ∧ (∀ pipe p n1 n2 more g,
           PyStr.split pipe = p :: n1 :: n2 :: more →
           n1 = node ∨ n2 = node →
           add_pipe (get_skip_nodes_from_elevation file thr) g pipe = g))
  ∧ (∀ elevation,
      float_of_str "150.0" = Some elevation →
      float_gt elevation float_100 = true →
      let graph :=
        (create_graph_from_inp
           ["[JUNCTIONS]"; "N1 150.0"; "[PIPES]"; "P1 N1 N2"] float_100).1 in
      graph = ∅ ∧ graph !! "N1" = None ∧ graph !! "N2" = None).
Proof.
  split.
  - intros record node field rest elevation Hrec Hsplit Hparse Hgt.
    assert (node ∈ get_skip_nodes_from_elevation file thr) as Hskip.
    { apply elem_of_get_skip_nodes. by exists record, field, rest, elevation. }
    destruct (loader_inv_create_graph file thr) as [Hkey Hnb _ _ _].
    split_and!.
    + destruct (_ !! node) eqn:Hnode; [|done].
      destruct (Hkey node); [by eexists | done].
    + intros k edges w Hk Hin.
      destruct (Hkey node); [|done].
      eapply Hnb, elem_of_adj; done.
    + intros pipe p n1 n2 more g Hpipe Hend. unfold add_pipe. rewrite Hpipe.
      destruct Hend as [-> | ->].
      * by rewrite (bool_decide_eq_true_2 _ Hskip).
      * rewrite (bool_decide_eq_true_2 (node ∈ _) Hskip).
        by rewrite orb_true_r.
  - intros elevation Hparse Hgt graph.
    assert (graph = ∅) as ->; [|by rewrite !lookup_empty].
    subst graph. unfold create_graph_from_inp, get_skip_nodes_from_elevation.
    replace (_read_inp_sections _) with
      (<["PIPES" := ["P1 N1 N2"]]> (<["JUNCTIONS" := ["N1 150.0"]]>
         (∅ : gmap string (list string)))) by (by vm_compute).
    unfold dict_get.
    rewrite lookup_insert_eq, lookup_insert_ne, lookup_insert_eq by done.
    simpl. unfold skip_line, add_pipe.
    replace (PyStr.startswith "N1 150.0" ";") with false by (by vm_compute).
    replace (PyStr.split "N1 150.0") with ["N1"; "150.0"] by (by vm_compute).
    replace (PyStr.split "P1 N1 N2") with ["P1"; "N1"; "N2"] by (by vm_compute).
    rewrite Hparse, Hgt. rewrite bool_decide_eq_true_2 by set_solver. done.
Qed.

(** The sensors that the pipeline hands to redundancy removal are keys
    of the loader's graph. *)
Lemma pipeline_sensors_are_keys (file : list string) (thr : float) :
  let graph := (create_graph_from_inp file thr).1 in
  let nearest := find_nearest_neighbors graph in
  let initial := identify_initial_sensor_nodes nearest in
  initial ∪ identify_left_out_nodes nearest initial ⊆ dom graph.
Proof.
  cbv zeta. destruct (loader_inv_create_graph file thr) as [_ Hnb _ _ _].
  intros s [Hs|Hs]%elem_of_union; apply elem_of_dom.
  - apply elem_of_identify_initial_sensor_nodes in Hs.
    destruct (size_pos_elem_of (namers (find_nearest_neighbors
      (create_graph_from_inp file thr).1) s)) as [k Hk]; [lia|].
    apply elem_of_namers, find_nearest_neighbors_Some in Hk
      as (edges & w & Hedges & Hin).
    eapply Hnb, elem_of_adj; done.
  - apply elem_of_identify_left_out_nodes in Hs as (n & Hn & _).
    apply find_nearest_neighbors_Some in Hn as (edges & w & Hedges & _).
    by eexists.
Qed.

Lemma remove_redundant_sensors_keys_subset
    (graph : gmap string (list (string * float))) (sensors : gset string) :
  sensors ⊆ dom graph →
  ∃ pruned,
    remove_redundant_sensors graph sensors = Some pruned ∧ pruned ⊆ sensors.
Proof.
  intros Hsub. pose proof (subseteq_dom_is_Some _ _ Hsub) as Hkeys.
  destruct (remove_redundant_sensors_is_Some graph sensors Hkeys)
    as [pruned Hrun].
  exists pruned. split; [done|]. intros s Hs.
  by apply (remove_redundant_sensors_Some _ _ _ Hrun) in Hs as [? _].
Qed.

(** C9: the lookup failure of redundancy removal.  The call fails
    exactly when a member of the sensor set is no key of the graph; the
    sensors that the pipeline builds from the loader's graph are all keys
    of it, so there the call returns, and so do [identify_sensor_nodes]
    and [main] on every file. *)
Theorem remove_redundant_sensors_lookup_failure :
  (∀ (graph : gmap string (list (string * float))) (sensors : gset string),
      remove_redundant_sensors graph sensors = None ↔
      ∃ s, s ∈ sensors ∧ s ∉ dom graph)
  ∧ (∀ (file : list string) (thr : float),
      let graph := (create_graph_from_inp file thr).1 in
      let nearest := find_nearest_neighbors graph in
      let initial := identify_initial_sensor_nodes nearest in
      let sensors := initial ∪ identify_left_out_nodes nearest initial in
      sensors ⊆ dom graph
      ∧ is_Some (remove_redundant_sensors graph sensors))
  ∧ (∀ file : list string,
      is_Some (identify_sensor_nodes file) ∧ is_Some (main file)).
Proof.
  split_and!.
  - intros graph sensors. rewrite remove_redundant_sensors_None.
    by setoid_rewrite not_elem_of_dom.
  - intros file thr; cbv zeta.
    pose proof (pipeline_sensors_are_keys file thr) as Hkeys.
    split; [done|].
    by apply remove_redundant_sensors_is_Some, subseteq_dom_is_Some.
  - intros file.
    pose proof (pipeline_sensors_are_keys file float_100) as Hkeys.
    destruct (remove_redundant_sensors_keys_subset _ _ Hkeys)
      as (sensors & Hrun & Hsub).
    assert (identify_sensor_nodes file = Some sensors) as Hfirst by done.
    split; [by eexists|].
    unfold main. rewrite Hfirst. cbn [mbind option_bind].
    assert (sensors ⊆ dom (create_graph_from_inp file float_100).1)
      as Hkeys' by (etrans; done).
    destruct (remove_redundant_sensors_keys_subset _ _ Hkeys')
      as (again & Hagain & _).
    rewrite Hagain. cbn [mbind option_bind]. by eexists.
Qed.

(** The adjacency lists have no entry for their own node as long as no
    kept pipe record joins a node to itself. *)
Lemma create_graph_no_self_loop (file : list string) (thr : float) :
  (∀ line p n1 n2 rest,
      line ∈ dict_get (_read_inp_sections file) "PIPES" [] →
      PyStr.split line = p :: n1 :: n2 :: rest →
      n1 = n2 → n1 ∈ get_skip_nodes_from_elevation file thr) →
  ∀ k w, (k, w) ∉ adj (create_graph_from_inp file thr).1 k.
Proof.
  intros Hpipes. unfold create_graph_from_inp; simpl.
  apply (foldl_invariant (λ g, ∀ k w, (k, w) ∉ adj g k)).
  - intros k w. unfold adj. rewrite dict_get_empty. apply not_elem_of_nil.
  - intros g line Hline Hg k w.
    destruct (add_pipe_cases (get_skip_nodes_from_elevation file thr) g line)
      as [->|(p & n1 & n2 & rest & Hsplit & H1 & H2 & ->)]; [done|].
    rewrite adj_with_edge, elem_of_app, elem_of_new_entries.
    intros [Hin|[_ [[-> ->]|[-> ->]]]].
    + by eapply Hg.
    + apply H1. by eapply Hpipes.
    + apply H1. by eapply Hpipes.
Qed.

(** C2, amended: for every file and threshold the nearest map of the
    loader's graph maps every node to a neighbour of its own adjacency
    list; and when no pipe record kept by the elevation filter has the
    same node at both ends, the adjacency lists hold no entry for their
    own node and the nearest map maps no node to itself. *)
Theorem nearest_neighbor_not_self (file : list string) (thr : float) :
  let graph := (create_graph_from_inp file thr).1 in
  (∀ node n, find_nearest_neighbors graph !! node = Some n →
     ∃ edges w, graph !! node = Some edges ∧ (n, w) ∈ edges)
  ∧ ((∀ line p n1 n2 rest,
         line ∈ dict_get (_read_inp_sections file) "PIPES" [] →
         PyStr.split line = p :: n1 :: n2 :: rest →
         n1 = n2 → n1 ∈ get_skip_nodes_from_elevation file thr) →
     (∀ node edges w, graph !! node = Some edges → (node, w) ∉ edges)
     ∧ (∀ node, find_nearest_neighbors graph !! node ≠ Some node)).
Proof.
  cbv zeta. split.
  - intros node n. apply find_nearest_neighbors_Some.
  - intros Hpipes.
    pose proof (create_graph_no_self_loop file thr Hpipes) as Hloop.
    split.
    + intros node edges w Hnode Hin. apply (Hloop node w).
      by eapply elem_of_adj.
    + intros node (edges & w & Hedges & Hin)%find_nearest_neighbors_Some.
      apply (Hloop node w). by eapply elem_of_adj.
Qed.

(** C3, amended: the initial sensors are exactly the nodes that more
    than one node of the nearest map names, the node itself counted
    when it is its own nearest neighbour. *)
Theorem identify_initial_sensor_nodes_spec
    (nearest : gmap string string) (t : string) :
  (t ∈ identify_initial_sensor_nodes nearest ↔ 1 < size (namers nearest t))
  ∧ size (namers nearest t)
    = size (namers nearest t ∖ {[t]})
      + (if decide (nearest !! t = Some t) then 1 else 0).
Proof.
  split; [apply elem_of_identify_initial_sensor_nodes|].
  case_decide as Hself.
  - rewrite (union_difference_L {[t]} (namers nearest t)) at 1.
    + rewrite size_union, size_singleton by set_solver. lia.
    + apply singleton_subseteq_l. by apply elem_of_namers.
  - rewrite Nat.add_0_r. f_equal. apply set_eq. intros k.
    rewrite elem_of_difference, elem_of_singleton, !elem_of_namers.
    naive_solver.
Qed.

(** X26: before redundancy removal the mapping does target sensors: a node
    outside the initial and gap-fill sensors has an initial sensor as its
    nearest neighbour. *)
Lemma map_to_sensors_before_pruning (nearest : gmap string string)
    (node target : string) :
  let initial := identify_initial_sensor_nodes nearest in
  let sensors := initial ∪ identify_left_out_nodes nearest initial in
  map_to_sensors nearest sensors !! node = Some target → target ∈ sensors.
Proof.
  cbv zeta. rewrite lookup_map_to_sensors. case_decide as Hnode; [|done].
  intros Htarget. apply elem_of_union. left.
  destruct (decide (target ∈ identify_initial_sensor_nodes nearest))
    as [|Hout]; [done|].
  destruct Hnode. apply elem_of_union. right.
  apply elem_of_identify_left_out_nodes. by exists target.
Qed.

(** No section at all: no sensor, no mapping, no failure. *)
Example main_empty : main [] = Some (∅, ∅).
Proof. by vm_compute. Qed.

(** C1: on the file with the single pipe record "P1 A B" the pipeline
    returns no sensor at all and a mapping that sends A to B and B to A:
    the values of the mapping are not sensors. *)
Theorem main_maps_to_non_sensor :
  main ["[PIPES]"; "P1 A B"]
  = Some (∅, <["A" := "B"]> (<["B" := "A"]> ∅)).
Proof. by vm_compute. Qed.

End Claims.

(** ** The claims on concrete inputs *)

Section Instances.
Import Decimal Samples.

(** The star B - A, B - C, B - D: B is the only sensor and covers the
    three other nodes. *)
Example main_star :
  main ["[PIPES]"; "P1 A B"; "P2 B C"; "P3 B D"]
  = Some ({["B"]}, <["A" := "B"]> (<["C" := "B"]> (<["D" := "B"]> ∅))).
Proof. by vm_compute. Qed.

(** C4 on the path A - B - C with the sensors A and B *)
Lemma remove_redundant_sensors_idempotent_witness :
  path_sensors ⊆ dom path_graph
  ∧ ∃ pruned,
      remove_redundant_sensors path_graph path_sensors = Some pruned
      ∧ remove_redundant_sensors path_graph pruned = Some pruned.
Proof.
  split; [compute_done|].
  apply (remove_redundant_sensors_idempotent path_graph path_sensors).
  compute_done.
Defined.

(** C5 on the path A - B - C with the sensors A and B *)
Lemma remove_redundant_sensors_postcondition_witness :
  path_sensors ⊆ dom path_graph
  ∧ ∃ pruned,
      remove_redundant_sensors path_graph path_sensors = Some pruned
      ∧ (∀ s edges, s ∈ pruned → path_graph !! s = Some edges →
           ∃ n w, (n, w) ∈ edges ∧ n ∉ pruned)
      ∧ (∀ s, path_graph !! s = Some [] → s ∉ pruned)
      ∧ (∀ s, s ∈ pruned ↔
              s ∈ path_sensors
              ∧ ∃ edges n w, path_graph !! s = Some edges
                             ∧ (n, w) ∈ edges ∧ n ∉ path_sensors).
Proof.
  split; [compute_done|].
  apply (remove_redundant_sensors_postcondition path_graph path_sensors).
  compute_done.
Defined.

(** C10 on the path A - B - C with the sensors A and B *)
Lemma remove_redundant_sensors_subset_witness :
  path_sensors ⊆ dom path_graph
  ∧ ∃ pruned,
      remove_redundant_sensors path_graph path_sensors = Some pruned
      ∧ pruned ⊆ path_sensors.
Proof.
  split; [compute_done|].
  apply (remove_redundant_sensors_subset path_graph path_sensors).
  compute_done.
Defined.

(** C8 on the file with one pipe between A and B *)
Lemma create_graph_symmetric_witness :
  (create_graph_from_inp single_pipe float_100).1 !! "A"
    = Some [("B", float_1)]
  ∧ ("B", float_1) ∈ [("B", float_1)]
  ∧ ∃ edges',
      (create_graph_from_inp single_pipe float_100).1 !! "B" = Some edges'
      ∧ ("A", float_1) ∈ edges'
      ∧ occurrences ("A", float_1) edges'
        = occurrences ("B", float_1) [("B", float_1)]
      ∧ float_1 = float_1.
Proof.
  split_and!; [by vm_compute | left |].
  apply (create_graph_symmetric single_pipe float_100 "A" "B" float_1
           [("B", float_1)]); [by vm_compute | left].
Defined.

(** C7 on the scenario of the claim *)
Lemma elevation_exclusion_witness :
  "N1 150.0" ∈ dict_get (_read_inp_sections high_junction) "JUNCTIONS" []
  ∧ PyStr.split "N1 150.0" = ["N1"; "150.0"]
  ∧ float_of_str "150.0" = Some (Q2Qc (Qmake 1500 10))
  ∧ float_gt (Q2Qc (Qmake 1500 10)) float_100 = true
  ∧ (create_graph_from_inp high_junction float_100).1 !! "N1" = None
  ∧ (create_graph_from_inp high_junction float_100).1 = ∅.
Proof.
  split_and!; [compute_done | reflexivity | reflexivity | by vm_compute | |].
  - apply (proj1 (elevation_exclusion (H := decimal_float) high_junction float_100)
             "N1 150.0" "N1" "150.0" [] (Q2Qc (Qmake 1500 10)));
      [compute_done | reflexivity | reflexivity | by vm_compute].
  - apply (proj2 (elevation_exclusion (H := decimal_float) high_junction float_100)
             (Q2Qc (Qmake 1500 10))); [reflexivity | by vm_compute].
Defined.

(** C2, amended: the first part on the file with a pipe from A to
    itself, where the hypothesis of the second part fails, and the second
    part on the file with one pipe between A and B *)
Lemma nearest_neighbor_not_self_witness :
  (find_nearest_neighbors (create_graph_from_inp loop_pipe float_100).1
     !! "A" = Some "A"
   ∧ ∃ edges w,
       (create_graph_from_inp loop_pipe float_100).1 !! "A" = Some edges
       ∧ ("A", w) ∈ edges)
  ∧ (∀ line p n1 n2 rest,
        line ∈ dict_get (_read_inp_sections single_pipe) "PIPES" [] →
        PyStr.split line = p :: n1 :: n2 :: rest →
        n1 = n2 → n1 ∈ get_skip_nodes_from_elevation single_pipe float_100)
  ∧ (∀ node edges w,
        (create_graph_from_inp single_pipe float_100).1 !! node = Some edges →
        (node, w) ∉ edges)
  ∧ find_nearest_neighbors (create_graph_from_inp single_pipe float_100).1
      !! "A" ≠ Some "A".
Proof.
  assert (∀ line p n1 n2 rest,
      line ∈ dict_get (_read_inp_sections single_pipe) "PIPES" [] →
      PyStr.split line = p :: n1 :: n2 :: rest →
      n1 = n2 → n1 ∈ get_skip_nodes_from_elevation single_pipe float_100)
    as Hpipes.
  { intros line p n1 n2 rest Hline Hsplit Heq.
    assert (line = "P1 A B") as ->.
    { apply list_elem_of_singleton. exact Hline. }
    vm_compute in Hsplit. congruence. }
  assert (find_nearest_neighbors (create_graph_from_inp loop_pipe float_100).1
            !! "A" = Some "A") as Hloop by (by vm_compute).
  split_and!.
  - exact Hloop.
  - exact (proj1 (nearest_neighbor_not_self (H := decimal_float)
                    loop_pipe float_100) "A" "A" Hloop).
  - exact Hpipes.
  - exact (proj1 (proj2 (nearest_neighbor_not_self (H := decimal_float)
                           single_pipe float_100) Hpipes)).
  - exact (proj2 (proj2 (nearest_neighbor_not_self (H := decimal_float)
                           single_pipe float_100) Hpipes) "A").
Defined.

(** C2 as stated fails: a pipe record with the same node at both ends
    puts the node into its own adjacency list, and the nearest map then
    maps the node to itself. *)
Lemma nearest_neighbor_self_counterexample :
  (create_graph_from_inp loop_pipe float_100).1 !! "A"
    = Some [("A", float_1); ("A", float_1)]
  ∧ find_nearest_neighbors (create_graph_from_inp loop_pipe float_100).1
      !! "A" = Some "A".
Proof. split; by vm_compute. Qed.

(** C3 as stated fails: with A its own nearest neighbour and B naming A
    as well, A is an initial sensor although B is the only other node
    that names it. *)
Lemma identify_initial_sensor_nodes_counterexample :
  let nearest :=
    find_nearest_neighbors (create_graph_from_inp loop_and_pipe float_100).1 in
  nearest = <["A" := "A"]> (<["B" := "A"]> ∅)
  ∧ "A" ∈ identify_initial_sensor_nodes nearest
  ∧ namers nearest "A" ∖ {["A"]} = {["B"]}
  ∧ ¬ (1 < size (namers nearest "A" ∖ {["A"]})).
Proof. cbv zeta. split_and!; [by vm_compute | compute_done..]. Qed.

End Instances.

(** * Further properties of the code *)

(** ** The section reader *)

Lemma read_line_ignored st raw :
  ignored_line raw = true → read_line st raw = st.
Proof.
  unfold ignored_line, read_line. destruct st as [sections current].
  by intros ->.
Qed.

Lemma read_line_header sections current raw :
  header_line raw = true →
  read_line (sections, current) raw
  = (dict_setdefault sections (header_name raw) [], header_name raw).
Proof.
  unfold header_line, ignored_line, read_line, header_name.
  intros [Hign Hhead]%andb_true_iff. apply negb_true_iff in Hign.
  by rewrite Hign, Hhead.
Qed.

Lemma read_line_record sections current raw :
  ignored_line raw = false → header_line raw = false →
  read_line (sections, current) raw
  = if PyStr.truthy current
    then (alter (λ l, l ++ [PyStr.strip raw]) current sections, current)
    else (sections, current).
Proof.
  unfold header_line, ignored_line, read_line. intros Hign.
  rewrite Hign; simpl. by intros ->.
Qed.

(** the three cases of one iteration, by the kind of the raw line *)
Lemma read_line_cases sections current raw :
  (ignored_line raw = true
   ∧ read_line (sections, current) raw = (sections, current))
  ∨ (header_line raw = true
     ∧ read_line (sections, current) raw
       = (dict_setdefault sections (header_name raw) [], header_name raw))
  ∨ (ignored_line raw = false ∧ header_line raw = false
     ∧ read_line (sections, current) raw
       = if PyStr.truthy current
         then (alter (λ l, l ++ [PyStr.strip raw]) current sections, current)
         else (sections, current)).
Proof.
  destruct (ignored_line raw) eqn:Hign.
  - left. split; [done|]. by apply read_line_ignored.
  - right. destruct (header_line raw) eqn:Hhead.
    + left. split; [done|]. by apply read_line_header.
    + right. split_and!; [done..|]. by apply read_line_record.
Qed.

(** X1: a blank line or a comment line may stand anywhere in the file
    without changing the sections that are read. *)
Theorem read_inp_sections_ignores (before after : list string) (raw : string) :
  ignored_line raw = true →
  _read_inp_sections (before ++ raw :: after)
  = _read_inp_sections (before ++ after).
Proof.
  intros Hign. unfold _read_inp_sections.
  rewrite !foldl_app; simpl. by rewrite read_line_ignored.
Qed.

(** Outside every section, that is with an empty current name, the lines
    that are no header leave the state as it is. *)
Lemma read_lines_no_section sections (lines : list string) :
  Forall (λ raw, header_line raw = false) lines →
  foldl read_line (sections, EmptyString) lines = (sections, EmptyString).
Proof.
  induction 1 as [|raw lines Hraw _ IH]; cbn [foldl]; [done|].
  destruct (read_line_cases sections EmptyString raw)
    as [[_ ->]|[[? _]|(_ & _ & ->)]]; [done|congruence|done].
Qed.

(** X2: the lines before the first section header are not read: a prefix
    of the file without a header line can be dropped. *)
Theorem read_inp_sections_before_first_header (pre rest : list string) :
  Forall (λ raw, header_line raw = false) pre →
  _read_inp_sections (pre ++ rest) = _read_inp_sections rest.
Proof.
  intros Hpre. unfold _read_inp_sections.
  by rewrite foldl_app, read_lines_no_section.
Qed.

(** X3: a header whose name is empty, such as "[]", opens no section
    for the records below it: they are dropped up to the next header. *)
Theorem read_inp_sections_empty_name
    (before records after : list string) (header : string) :
  header_line header = true →
  header_name header = EmptyString →
  Forall (λ raw, header_line raw = false) records →
  _read_inp_sections (before ++ header :: records ++ after)
  = _read_inp_sections (before ++ header :: after).
Proof.
  intros Hhead Hname Hrecords. unfold _read_inp_sections.
  rewrite !foldl_app. cbn [foldl].
  destruct (foldl read_line (∅, EmptyString) before) as [sections current].
  rewrite read_line_header by done. rewrite Hname.
  by rewrite foldl_app, read_lines_no_section.
Qed.

Lemma elem_of_dom_dict_setdefault {V} (d : gmap string V) name v k :
  k ∈ dom (dict_setdefault d name v) ↔ k = name ∨ k ∈ dom d.
Proof.
  rewrite !elem_of_dom, lookup_dict_setdefault.
  case_decide; subst; unfold is_Some; naive_solver.
Qed.

Lemma header_line_not_ignored raw :
  header_line raw = true → ignored_line raw = false.
Proof.
  unfold header_line. intros [Hign _]%andb_true_iff.
  by apply negb_true_iff.
Qed.

Lemma dom_read_lines (file : list string) st k :
  k ∈ dom (foldl read_line st file).1 ↔
  k ∈ dom st.1
  ∨ ∃ raw, raw ∈ file ∧ header_line raw = true ∧ k = header_name raw.
Proof.
  revert st. induction file as [|raw file IH]; intros [sections current];
    cbn [foldl].
  - split; [by left|]. intros [?|(raw & ?%elem_of_nil & _)]; done.
  - rewrite IH. setoid_rewrite elem_of_cons.
    destruct (read_line_cases sections current raw)
      as [[Hign ->]|[[Hhead ->]|(Hign & Hhead & ->)]]; simpl.
    + assert (header_line raw = false) as Hhead.
      { unfold header_line. by rewrite Hign. }
      split; [naive_solver|].
      intros [?|(raw' & [->|?] & ? & ?)]; [by left|congruence|naive_solver].
    + rewrite elem_of_dom_dict_setdefault. naive_solver.
    + assert (dom (if PyStr.truthy current
                   then (alter (λ l, l ++ [PyStr.strip raw]) current sections,
                         current)
                   else (sections, current)).1 = dom sections) as ->.
      { destruct (PyStr.truthy current); simpl; [apply dom_alter_L | done]. }
      split; [naive_solver|].
      intros [?|(raw' & [->|?] & ? & ?)]; [by left|congruence|naive_solver].
Qed.

Lemma upper_char_idempotent c :
  PyStr.upper_char (PyStr.upper_char c) = PyStr.upper_char c.
Proof. by destruct c as [[] [] [] [] [] [] [] []]. Qed.

Lemma upper_idempotent s : PyStr.upper (PyStr.upper s) = PyStr.upper s.
Proof.
  induction s as [|c s IH]; simpl; [done|].
  by rewrite upper_char_idempotent, IH.
Qed.

(** X4: the section names are exactly the names of the header lines of
    the file, and every one of them is in upper case. *)
Theorem read_inp_sections_names (file : list string) :
  (∀ k, k ∈ dom (_read_inp_sections file) ↔
        ∃ raw, raw ∈ file ∧ header_line raw = true ∧ k = header_name raw)
  ∧ (∀ k, k ∈ dom (_read_inp_sections file) → PyStr.upper k = k).
Proof.
  assert (∀ k, k ∈ dom (_read_inp_sections file) ↔
    ∃ raw, raw ∈ file ∧ header_line raw = true ∧ k = header_name raw) as Hdom.
  { intros k. unfold _read_inp_sections. rewrite dom_read_lines; simpl.
    rewrite dom_empty_L. set_solver. }
  split; [done|].
  intros k (raw & _ & _ & ->)%Hdom. apply upper_idempotent.
Qed.

(** X5: every line stored under a section is the stripped text of a raw
    line of the file that is neither blank, nor a comment, nor a header. *)
Theorem read_inp_sections_lines (file : list string)
    (k : string) (lines : list string) (line : string) :
  _read_inp_sections file !! k = Some lines →
  line ∈ lines →
  ∃ raw, raw ∈ file ∧ line = PyStr.strip raw
         ∧ ignored_line raw = false ∧ header_line raw = false.
Proof.
  unfold _read_inp_sections. revert k lines line.
  apply (foldl_invariant (λ st, ∀ k lines line,
    st.1 !! k = Some lines → line ∈ lines →
    ∃ raw, raw ∈ file ∧ line = PyStr.strip raw
           ∧ ignored_line raw = false ∧ header_line raw = false)).
  - intros k lines line; simpl. by rewrite lookup_empty.
  - intros [sections current] raw Hraw IH k lines line.
    destruct (read_line_cases sections current raw)
      as [[Hign ->]|[[Hhead ->]|(Hign & Hhead & ->)]]; simpl.
    + apply IH.
    + rewrite lookup_dict_setdefault. case_decide; [|apply IH].
      intros [= <-]. unfold dict_get.
      destruct (sections !! header_name raw) as [old|] eqn:Hold; simpl.
      * by apply (IH _ _ _ Hold).
      * by intros ?%elem_of_nil.
    + destruct (PyStr.truthy current); simpl; [|apply IH].
      rewrite lookup_alter. case_decide; [|apply IH].
      destruct (sections !! current) as [old|] eqn:Hold; simpl; [|done].
      intros [= <-]. rewrite elem_of_app, list_elem_of_singleton.
      intros [Hin| ->]; [by apply (IH _ _ _ Hold) | by exists raw].
Qed.

Lemma read_line_extends st raw k lines :
  st.1 !! k = Some lines →
  ∃ extra, (read_line st raw).1 !! k = Some (lines ++ extra).
Proof.
  destruct st as [sections current]. cbn [fst]. intros Hk.
  destruct (read_line_cases sections current raw)
    as [[Hign ->]|[[Hhead ->]|(Hign & Hhead & ->)]]; simpl.
  - exists []. by rewrite app_nil_r.
  - exists []. rewrite app_nil_r, lookup_dict_setdefault.
    case_decide; [|done]. subst. unfold dict_get. by rewrite Hk.
  - destruct (PyStr.truthy current); simpl.
    + rewrite lookup_alter. case_decide.
      * subst. rewrite Hk; simpl. by eexists.
      * exists []. by rewrite app_nil_r.
    + exists []. by rewrite app_nil_r.
Qed.

(** X6: reading further lines never removes a section or a stored line:
    the sections of a file are kept, each as a prefix, when lines are
    appended to the file. *)
Theorem read_inp_sections_extends (file more : list string)
    (k : string) (lines : list string) :
  _read_inp_sections file !! k = Some lines →
  ∃ extra, _read_inp_sections (file ++ more) !! k = Some (lines ++ extra).
Proof.
  unfold _read_inp_sections. rewrite foldl_app.
  generalize (foldl read_line (∅, EmptyString) file). intros st.
  revert st lines. induction more as [|raw more IH]; intros st lines Hk;
    cbn [foldl].
  - exists []. by rewrite app_nil_r.
  - destruct (read_line_extends st raw k lines Hk) as [e1 Hstep].
    destruct (IH _ _ Hstep) as [e2 Hrest].
    exists (e1 ++ e2). by rewrite app_assoc.
Qed.

(** X7: in every state of the reading loop a current section name that
    is not empty is a key of the dictionary, so that the lookup
    [sections[current]] of the loop always finds its list. *)
Theorem read_line_current_is_key (file : list string) :
  let st := foldl read_line (∅, EmptyString) file in
  PyStr.truthy st.2 = true → is_Some (st.1 !! st.2).
Proof.
  cbv zeta.
  apply (foldl_invariant
           (λ st, PyStr.truthy st.2 = true → is_Some (st.1 !! st.2))).
  - done.
  - intros [sections current] raw _ IH.
    destruct (read_line_cases sections current raw)
      as [[Hign ->]|[[Hhead ->]|(Hign & Hhead & ->)]]; simpl in *.
    + done.
    + intros _. rewrite lookup_dict_setdefault, decide_True by done.
      by eexists.
    + destruct (PyStr.truthy current) eqn:Hcur; simpl; [|congruence].
      intros _. rewrite lookup_alter, decide_True by done.
      destruct (IH eq_refl) as [old ->]. by eexists.
Qed.

(** ** The skip set and the graph of the loader *)

Section LoaderFurther.
Context `{PyFloat}.

(** X8: the skip set holds exactly the first fields of the junction
    records whose second field parses to an elevation above the threshold:
    a record with a single field or with an elevation that does not parse
    excludes nothing, and neither does a file without junction section. *)
Theorem get_skip_nodes_exact (file : list string) (thr : float) :
  (∀ node, node ∈ get_skip_nodes_from_elevation file thr ↔
      ∃ line field rest elevation,
        line ∈ dict_get (_read_inp_sections file) "JUNCTIONS" []
        ∧ PyStr.split line = node :: field :: rest
        ∧ float_of_str field = Some elevation
        ∧ float_gt elevation thr = true)
  ∧ (_read_inp_sections file !! "JUNCTIONS" = None →
     get_skip_nodes_from_elevation file thr = ∅).
Proof.
  split; [intros node; apply elem_of_get_skip_nodes|].
  intros Hnone. unfold get_skip_nodes_from_elevation, dict_get.
  by rewrite Hnone.
Qed.

Lemma add_pipe_pipe_ends skip g line :
  add_pipe skip g line
  = match pipe_ends skip line with
    | Some ends => with_edge g ends.1 ends.2
    | None => g
    end.
Proof.
  unfold add_pipe, pipe_ends.
  destruct (PyStr.split line) as [|p [|n1 [|n2 rest]]]; try done.
  by destruct (bool_decide (n1 ∈ skip) || bool_decide (n2 ∈ skip)).
Qed.

Lemma entries_of_cons ends pipes c :
  entries_of (ends :: pipes) c
  = new_entries ends.1 ends.2 c ++ entries_of pipes c.
Proof. done. Qed.

Lemma adj_foldl_add_pipe skip (lines : list string) g c :
  adj (foldl (add_pipe skip) g lines) c
  = adj g c ++ entries_of (omap (pipe_ends skip) lines) c.
Proof.
  revert g. induction lines as [|line lines IH]; intros g; cbn [foldl].
  - by rewrite app_nil_r.
  - rewrite IH, add_pipe_pipe_ends. cbn [omap list_omap].
    destruct (pipe_ends skip line) as [ends|]; [|done].
    by rewrite adj_with_edge, entries_of_cons, app_assoc.
Qed.

Lemma elem_of_entries_of pipes c n w :
  (n, w) ∈ entries_of pipes c ↔
  w = float_1
  ∧ ∃ n1 n2, (n1, n2) ∈ pipes ∧ ((n1 = c ∧ n = n2) ∨ (n2 = c ∧ n = n1)).
Proof.
  unfold entries_of. rewrite list_elem_of_bind. split.
  - intros ([n1 n2] & Hin%elem_of_new_entries & Hpipe). naive_solver.
  - intros (-> & n1 & n2 & Hpipe & Hends). exists (n1, n2).
    split; [|done]. by apply elem_of_new_entries.
Qed.

Lemma entries_of_nil_iff pipes c :
  entries_of pipes c = [] ↔
  ∀ n1 n2, (n1, n2) ∈ pipes → n1 ≠ c ∧ n2 ≠ c.
Proof.
  induction pipes as [|[n1 n2] pipes IH].
  - split; [|done]. by intros _ ?? ?%elem_of_nil.
  - rewrite entries_of_cons. split.
    + intros [Hnew Hrest]%app_eq_nil n1' n2' Hin.
      apply elem_of_cons in Hin as [[= -> ->]|Hin]; [|by apply IH].
      unfold new_entries in Hnew; simpl in Hnew.
      repeat case_decide; simplify_eq; done.
    + intros Hall. apply app_nil. split.
      * destruct (Hall n1 n2) as [? ?]; [left|].
        unfold new_entries; simpl. by rewrite !decide_False.
      * apply IH. intros ?? ?. apply Hall. by right.
Qed.

Lemma adj_create_graph (file : list string) (thr : float) (c : string) :
  adj (create_graph_from_inp file thr).1 c = entries_of (kept_pipes file thr) c.
Proof.
  unfold create_graph_from_inp, kept_pipes; simpl.
  rewrite adj_foldl_add_pipe. unfold adj at 1. by rewrite dict_get_empty.
Qed.

Lemma is_Some_lookup_create_graph file thr c :
  is_Some ((create_graph_from_inp file thr).1 !! c) ↔
  adj (create_graph_from_inp file thr).1 c ≠ [].
Proof.
  destruct (loader_inv_create_graph file thr) as [_ _ _ Hne _].
  unfold adj, dict_get. specialize (Hne c).
  destruct (_ !! c) as [edges|]; simpl.
  - split; [intros _ ->; done | by eexists].
  - split; [by intros [? ?] | done].
Qed.

(** X9: the adjacency list of a node lists, in the order of the pipe
    records, the far end of every kept pipe at the node with the weight
    1.0; a kept pipe from the node to itself is listed twice.  The node
    is no key of the graph exactly when no kept pipe ends at it. *)
Theorem create_graph_adjacency (file : list string) (thr : float) (c : string) :
  adj (create_graph_from_inp file thr).1 c = entries_of (kept_pipes file thr) c
  ∧ ((create_graph_from_inp file thr).1 !! c = None ↔
     entries_of (kept_pipes file thr) c = []).
Proof.
  split; [apply adj_create_graph|].
  rewrite <-adj_create_graph, eq_None_not_Some, is_Some_lookup_create_graph.
  split; [apply dec_stable | intros Heq Hne; by apply Hne].
Qed.

Lemma elem_of_dom_create_graph (file : list string) (thr : float) (c : string) :
  c ∈ dom (create_graph_from_inp file thr).1 ↔
  ∃ n1 n2, (n1, n2) ∈ kept_pipes file thr ∧ (c = n1 ∨ c = n2).
Proof.
  rewrite elem_of_dom, is_Some_lookup_create_graph, adj_create_graph.
  rewrite entries_of_nil_iff. split.
  - intros Hnot.
    destruct (decide (Exists (λ ends, ends.1 = c ∨ ends.2 = c)
                        (kept_pipes file thr))) as [Hex|Hno].
    + apply Exists_exists in Hex as ([n1 n2] & Hin & Hends); simpl in *.
      exists n1, n2. naive_solver.
    + destruct Hnot. intros n1 n2 Hin.
      split; intros <-; apply Hno, Exists_exists; exists (n1, n2); naive_solver.
  - intros (n1 & n2 & Hin & Hends) Hall.
    destruct (Hall n1 n2 Hin). naive_solver.
Qed.

(** X10: the keys of the graph are exactly the endpoints of the kept
    pipes: a node is a key only through a pipe record that was kept, and
    the graph is empty exactly when no pipe record was kept. *)
Theorem create_graph_keys (file : list string) (thr : float) :
  (∀ c, c ∈ dom (create_graph_from_inp file thr).1 ↔
        ∃ n1 n2, (n1, n2) ∈ kept_pipes file thr ∧ (c = n1 ∨ c = n2))
  ∧ ((create_graph_from_inp file thr).1 = ∅ ↔ kept_pipes file thr = []).
Proof.
  split; [intros c; apply elem_of_dom_create_graph|].
  rewrite <-dom_empty_iff_L. split.
  - intros Hempty. destruct (kept_pipes file thr) as [|[n1 n2] pipes] eqn:Hkept;
      [done|].
    assert (n1 ∈ dom (create_graph_from_inp file thr).1) as Hn1.
    { apply elem_of_dom_create_graph. exists n1, n2. rewrite Hkept.
      split; [left | by left]. }
    rewrite Hempty in Hn1. by apply not_elem_of_empty in Hn1.
  - intros Hkept. apply set_eq. intros c.
    rewrite elem_of_dom_create_graph, Hkept. split.
    + by intros (? & ? & ?%elem_of_nil & _).
    + by intros ?%not_elem_of_empty.
Qed.

Lemma dict_append_insert (g : gmap string (list (string * float))) k x :
  dict_append g k x = <[k := dict_get g k [] ++ [x]]> g.
Proof.
  apply map_eq. intros j. rewrite lookup_dict_append.
  case_decide; subst; by rewrite ?lookup_insert_eq, ?lookup_insert_ne.
Qed.

Lemma total_entries_insert_fresh (g : gmap string (list (string * float))) k l :
  g !! k = None → total_entries (<[k := l]> g) = length l + total_entries g.
Proof.
  intros Hk. unfold total_entries.
  rewrite map_fold_insert_L; [done| |done]. intros; lia.
Qed.

Lemma total_entries_dict_append g k x :
  total_entries (dict_append g k x) = S (total_entries g).
Proof.
  rewrite dict_append_insert. unfold dict_get.
  destruct (g !! k) as [l|] eqn:Hk; simpl.
  - rewrite <-(insert_delete_eq g k (l ++ [x])).
    rewrite <-(insert_delete_id g k l) at 2 by done.
    rewrite !total_entries_insert_fresh by apply lookup_delete_eq.
    rewrite length_app; simpl. lia.
  - by rewrite total_entries_insert_fresh.
Qed.

Lemma total_entries_foldl_add_pipe skip (lines : list string) g :
  total_entries (foldl (add_pipe skip) g lines)
  = total_entries g + 2 * length (omap (pipe_ends skip) lines).
Proof.
  revert g. induction lines as [|line lines IH]; intros g; cbn [foldl].
  - simpl. lia.
  - rewrite IH, add_pipe_pipe_ends. cbn [omap list_omap].
    destruct (pipe_ends skip line) as [ends|]; [|done].
    unfold with_edge. rewrite !total_entries_dict_append; simpl. lia.
Qed.

(** X11: the adjacency lists of the graph hold two entries for every
    kept pipe, and nothing else. *)
Theorem create_graph_total_entries (file : list string) (thr : float) :
  total_entries (create_graph_from_inp file thr).1
  = 2 * length (kept_pipes file thr).
Proof.
  unfold create_graph_from_inp, kept_pipes; simpl.
  rewrite total_entries_foldl_add_pipe. unfold total_entries.
  by rewrite map_fold_empty.
Qed.

End LoaderFurther.

(** ** The fields of a record *)

Lemma all_chars_rev_app p s1 s2 :
  all_chars p (String.rev_app s1 s2) = all_chars p s1 && all_chars p s2.
Proof.
  revert s2. induction s1 as [|c s1 IH]; intros s2; simpl; [done|].
  rewrite IH; simpl. by destruct (p c), (all_chars p s1), (all_chars p s2).
Qed.

Lemma truthy_rev_app s1 s2 :
  PyStr.truthy (String.rev_app s1 s2) = PyStr.truthy s1 || PyStr.truthy s2.
Proof.
  revert s2. induction s1 as [|c s1 IH]; intros s2; simpl; [done|].
  rewrite IH; simpl. apply orb_true_r.
Qed.

Lemma is_token_rev s : is_token s = true → is_token (String.rev s) = true.
Proof.
  unfold is_token, String.rev.
  rewrite all_chars_rev_app, truthy_rev_app; simpl.
  by rewrite orb_false_r, andb_true_r.
Qed.

Lemma split_go_tokens s cur part :
  (∀ c, cur = Some c → is_token c = true) →
  part ∈ PyStr.split_go cur s → is_token part = true.
Proof.
  revert cur. induction s as [|a s IH]; intros cur Hcur; simpl.
  - destruct cur as [c|]; simpl; [|by intros ?%elem_of_nil].
    intros ->%list_elem_of_singleton. by apply is_token_rev, Hcur.
  - destruct (PyStr.is_space a) eqn:Hspace.
    + rewrite elem_of_app. intros [Hpart|Hpart]; [|by apply (IH None)].
      destruct cur as [c|]; simpl in Hpart; [|by apply elem_of_nil in Hpart].
      apply list_elem_of_singleton in Hpart as ->. by apply is_token_rev, Hcur.
    + apply IH. intros c [= <-]. unfold is_token; simpl. rewrite Hspace; simpl.
      destruct cur as [c|]; simpl; [|done].
      specialize (Hcur c eq_refl). unfold is_token in Hcur.
      by apply andb_true_iff in Hcur as [_ ?].
Qed.

(** The fields that [split] cuts out of a record are not empty and hold
    no white space. *)
Lemma split_tokens (line part : string) :
  part ∈ PyStr.split line → is_token part = true.
Proof. apply split_go_tokens. done. Qed.

Section NodeNames.
Context `{PyFloat}.

Lemma elem_of_kept_pipes file thr n1 n2 :
  (n1, n2) ∈ kept_pipes file thr ↔
  ∃ line p rest,
    line ∈ dict_get (_read_inp_sections file) "PIPES" []
    ∧ PyStr.split line = p :: n1 :: n2 :: rest
    ∧ (n1 ∉ get_skip_nodes_from_elevation file thr)
    ∧ (n2 ∉ get_skip_nodes_from_elevation file thr).
Proof.
  unfold kept_pipes. rewrite list_elem_of_omap. unfold pipe_ends. split.
  - intros (line & Hline & Hends). exists line.
    destruct (PyStr.split line) as [|p [|m1 [|m2 rest]]]; try done.
    destruct (bool_decide (m1 ∈ _)) eqn:H1; simpl in Hends; [done|].
    destruct (bool_decide (m2 ∈ _)) eqn:H2; simpl in Hends; [done|].
    apply bool_decide_eq_false in H1, H2. simplify_eq. by exists p, rest.
  - intros (line & p & rest & Hline & Hsplit & H1 & H2). exists line.
    split; [done|]. rewrite Hsplit.
    by rewrite (bool_decide_eq_false_2 _ H1), (bool_decide_eq_false_2 _ H2).
Qed.

(** X12: the nodes of the graph, keys and neighbours alike, are second
    or third fields of pipe records: they are not empty, hold no white
    space, and are outside the skip set. *)
Theorem create_graph_node_names (file : list string) (thr : float)
    (c : string) :
  c ∈ dom (create_graph_from_inp file thr).1 →
  is_token c = true
  ∧ (c ∉ get_skip_nodes_from_elevation file thr)
  ∧ ∃ line p n1 n2 rest,
      line ∈ dict_get (_read_inp_sections file) "PIPES" []
      ∧ PyStr.split line = p :: n1 :: n2 :: rest
      ∧ (c = n1 ∨ c = n2).
Proof.
  intros (n1 & n2 & Hkept & Hc)%elem_of_dom_create_graph.
  apply elem_of_kept_pipes in Hkept as (line & p & rest & Hline & Hsplit & H1 & H2).
  assert (n1 ∈ PyStr.split line ∧ n2 ∈ PyStr.split line) as [Hn1 Hn2].
  { rewrite Hsplit. split; [right; left | right; right; left]. }
  apply (split_go_tokens line None) in Hn1, Hn2; [|done..].
  split_and!.
  - by destruct Hc as [-> | ->].
  - by destruct Hc as [-> | ->].
  - by exists line, p, n1, n2, rest.
Qed.

End NodeNames.

(** ** The nearest map *)

Section ResolverFurther.
Context `{PyFloat}.

Lemma elem_of_dom_find_nearest_neighbors
    (graph : gmap string (list (string * float))) (k : string) :
  k ∈ dom (find_nearest_neighbors graph) ↔
  ∃ edges, graph !! k = Some edges ∧ edges ≠ [].
Proof.
  rewrite elem_of_dom, lookup_find_nearest_neighbors.
  destruct (graph !! k) as [[|e rest]|]; simpl.
  - split; [by intros [? ?] | by intros (? & [= <-] & ?)].
  - split; [intros _; by eexists | by eexists].
  - split; [by intros [? ?] | by intros (? & ? & _)].
Qed.

(** X13: the keys of the nearest map are the nodes with a non-empty
    adjacency list; a node with an empty list gets no entry, the keys are
    keys of the graph, and the empty graph has the empty nearest map. *)
Theorem find_nearest_neighbors_keys
    (graph : gmap string (list (string * float))) :
  (∀ k, k ∈ dom (find_nearest_neighbors graph) ↔
        ∃ edges, graph !! k = Some edges ∧ edges ≠ [])
  ∧ dom (find_nearest_neighbors graph) ⊆ dom graph
  ∧ find_nearest_neighbors ∅ = ∅.
Proof.
  split_and!.
  - intros k. apply elem_of_dom_find_nearest_neighbors.
  - intros k (edges & Hk & _)%elem_of_dom_find_nearest_neighbors.
    apply elem_of_dom. by eexists.
  - apply map_eq. intros k.
    by rewrite lookup_find_nearest_neighbors, !lookup_empty.
Qed.

Lemma dom_find_nearest_create_graph (file : list string) (thr : float) :
  dom (find_nearest_neighbors (create_graph_from_inp file thr).1)
  = dom (create_graph_from_inp file thr).1.
Proof.
  destruct (loader_inv_create_graph file thr) as [_ _ _ Hne _].
  apply set_eq. intros k.
  rewrite elem_of_dom_find_nearest_neighbors, elem_of_dom. split.
  - intros (edges & -> & _). by eexists.
  - intros [edges Hk]. exists edges. split; [done|].
    intros ->. by apply (Hne k).
Qed.

(** X14: in the graph of the loader no adjacency list is empty, so the
    nearest map has an entry for every node of the graph. *)
Theorem nearest_map_covers_graph (file : list string) (thr : float) :
  (∀ k, (create_graph_from_inp file thr).1 !! k ≠ Some [])
  ∧ dom (find_nearest_neighbors (create_graph_from_inp file thr).1)
    = dom (create_graph_from_inp file thr).1.
Proof.
  destruct (loader_inv_create_graph file thr) as [_ _ _ Hne _].
  split; [done | apply dom_find_nearest_create_graph].
Qed.

Lemma min_by_weight_least first rest :
  (∀ x, float_lt x x = false) →
  (∀ x y z, float_lt x y = true → float_lt y z = true → float_lt x z = true) →
  (min_by_weight first rest = first
   ∨ float_lt (min_by_weight first rest).2 first.2 = true)
  ∧ ∀ e, e ∈ rest → float_lt e.2 (min_by_weight first rest).2 = false.
Proof.
  intros Hirr Htrans. unfold min_by_weight. revert first.
  induction rest as [|e rest IH]; intros first; cbn [foldl].
  - split; [by left|]. by intros e ?%elem_of_nil.
  - destruct (float_lt e.2 first.2) eqn:Hlt.
    + destruct (IH e) as [Hbest Hrest]. split.
      * right. destruct Hbest as [->|Hbest]; [done|]. by eapply Htrans.
      * intros x [->|Hx]%elem_of_cons; [|by apply Hrest].
        destruct Hbest as [->|Hbest]; [apply Hirr|].
        apply not_true_is_false. intros Hx.
        pose proof (Htrans _ _ _ Hx Hbest) as Hbad. by rewrite Hirr in Hbad.
    + destruct (IH first) as [Hbest Hrest]. split; [done|].
      intros x [->|Hx]%elem_of_cons; [|by apply Hrest].
      destruct Hbest as [->|Hbest]; [done|].
      apply not_true_is_false. intros Hx.
      pose proof (Htrans _ _ _ Hx Hbest) as Hbad. by rewrite Hlt in Hbad.
Qed.

(** X15: when [<] on the weights is irreflexive and transitive, the
    nearest neighbour of a node is an entry of its adjacency list whose
    weight no other entry of the list undercuts. *)
Theorem find_nearest_neighbors_minimal
    (graph : gmap string (list (string * float))) (k n : string) :
  (∀ x, float_lt x x = false) →
  (∀ x y z, float_lt x y = true → float_lt y z = true → float_lt x z = true) →
  find_nearest_neighbors graph !! k = Some n →
  ∃ edges w,
    graph !! k = Some edges ∧ (n, w) ∈ edges
    ∧ ∀ n' w', (n', w') ∈ edges → float_lt w' w = false.
Proof.
  intros Hirr Htrans. rewrite lookup_find_nearest_neighbors.
  destruct (graph !! k) as [[|first rest]|]; simpl; [done| |done].
  intros [= <-]. exists (first :: rest), (min_by_weight first rest).2.
  split_and!; [done| |].
  - rewrite <-surjective_pairing. apply min_by_weight_elem.
  - destruct (min_by_weight_least first rest Hirr Htrans) as [Hbest Hrest].
    intros n' w' [<-|Hin]%elem_of_cons; [|by apply (Hrest (n', w'))].
    destruct Hbest as [->|Hbest]; [apply Hirr|].
    apply not_true_is_false. intros Hx.
    pose proof (Htrans _ _ _ Hx Hbest) as Hbad. by rewrite Hirr in Hbad.
Qed.

Lemma min_by_weight_uniform first rest :
  float_lt float_1 float_1 = false →
  first.2 = float_1 → (∀ e, e ∈ rest → e.2 = float_1) →
  min_by_weight first rest = first.
Proof.
  intros Hirr Hfirst. unfold min_by_weight. 
  induction rest as [|e rest IH]; intros Hrest; cbn [foldl]; [done|].
  rewrite (Hrest e), Hfirst, Hirr by left.
  apply IH. intros e' He'. apply Hrest. by right.
Qed.

(** X16: ties go to the first entry.  In the graph of the loader all
    weights are 1.0, so, 1.0 being not below itself, the nearest
    neighbour of a node is the far end of the first kept pipe at the
    node. *)
Theorem nearest_neighbor_first_pipe (file : list string) (thr : float)
    (c : string) :
  float_lt float_1 float_1 = false →
  find_nearest_neighbors (create_graph_from_inp file thr).1 !! c
  = fst <$> head (entries_of (kept_pipes file thr) c).
Proof.
  intros Hirr. rewrite lookup_find_nearest_neighbors.
  rewrite <-adj_create_graph.
  destruct (loader_inv_create_graph file thr) as [_ _ Hw Hne _].
  unfold adj, dict_get in *. specialize (Hne c).
  destruct (_ !! c) as [[|first rest]|] eqn:Hc; simpl; [done| |done].
  f_equal. rewrite min_by_weight_uniform; [done..| |].
  - apply (Hw c first.1). rewrite Hc; simpl. rewrite <-surjective_pairing. left.
  - intros [n w] Hin; simpl. apply (Hw c n). rewrite Hc; simpl. by right.
Qed.

End ResolverFurther.

(** ** The selector *)

Section SelectorFurther.
Context `{PyFloat}.

(** X17: a node is left out exactly when its nearest neighbour is no
    sensor; the left-out nodes are keys of the nearest map, and a larger
    sensor set leaves out fewer nodes. *)
Theorem identify_left_out_nodes_spec
    (nearest : gmap string string) (sensors sensors' : gset string) :
  (∀ k, k ∈ identify_left_out_nodes nearest sensors ↔
        ∃ n, nearest !! k = Some n ∧ n ∉ sensors)
  ∧ identify_left_out_nodes nearest sensors ⊆ dom nearest
  ∧ (sensors ⊆ sensors' →
     identify_left_out_nodes nearest sensors'
     ⊆ identify_left_out_nodes nearest sensors).
Proof.
  split_and!.
  - intros k. apply elem_of_identify_left_out_nodes.
  - intros k (n & Hn & _)%elem_of_identify_left_out_nodes.
    apply elem_of_dom. by eexists.
  - intros Hsub k (n & Hn & Hout)%elem_of_identify_left_out_nodes.
    apply elem_of_identify_left_out_nodes. exists n. set_solver.
Qed.

Lemma remove_redundant_sensors_again
    (graph : gmap string (list (string * float))) (sensors pruned : gset string) :
  remove_redundant_sensors graph sensors = Some pruned →
  remove_redundant_sensors graph pruned = Some pruned.
Proof.
  intros Hrun.
  pose proof (remove_redundant_sensors_Some _ _ _ Hrun) as Hpruned.
  destruct (remove_redundant_sensors graph pruned) as [again|] eqn:Hagain.
  - f_equal. apply set_eq. intros s.
    rewrite (remove_redundant_sensors_Some _ _ _ Hagain s). split.
    + by intros [? _].
    + intros Hs. split; [done|].
      pose proof Hs as Hs'.
      apply Hpruned in Hs' as [_ (edges & n & w & Hedges & Hin & Hn)].
      exists edges, n, w. split_and!; [done..|].
      intros Hn'. by apply Hpruned in Hn' as [? _].
  - apply remove_redundant_sensors_None in Hagain as (s & Hs & Hnone).
    apply Hpruned in Hs as [_ (edges & _ & _ & Hedges & _)]. congruence.
Qed.

(** X18: the sets that redundancy removal returns unchanged are exactly
    the sets in which every sensor is a key of the graph with a neighbour
    outside the set. *)
Theorem remove_redundant_sensors_unchanged
    (graph : gmap string (list (string * float))) (sensors : gset string) :
  remove_redundant_sensors graph sensors = Some sensors ↔
  ∀ s, s ∈ sensors →
       ∃ edges n w, graph !! s = Some edges ∧ (n, w) ∈ edges ∧ n ∉ sensors.
Proof.
  split.
  - intros Hrun s Hs.
    by apply (remove_redundant_sensors_Some _ _ _ Hrun) in Hs as [_ ?].
  - intros Hall.
    destruct (remove_redundant_sensors_is_Some graph sensors) as [pruned Hrun].
    { intros s (edges & _ & _ & Hedges & _)%Hall. by eexists. }
    rewrite Hrun. f_equal. apply set_eq. intros s.
    rewrite (remove_redundant_sensors_Some _ _ _ Hrun s). naive_solver.
Qed.

(** X19: when every node of a graph is a sensor, and the neighbours in
    the graph are keys of it, redundancy removal leaves no sensor at
    all. *)
Theorem remove_redundant_sensors_all_nodes
    (graph : gmap string (list (string * float))) :
  (∀ k edges n w, graph !! k = Some edges → (n, w) ∈ edges → n ∈ dom graph) →
  remove_redundant_sensors graph (dom graph) = Some ∅.
Proof.
  intros Hclosed.
  destruct (remove_redundant_sensors_is_Some graph (dom graph))
    as [pruned Hrun].
  { intros s. apply elem_of_dom. }
  rewrite Hrun. f_equal. apply set_eq. intros s.
  rewrite (remove_redundant_sensors_Some _ _ _ Hrun s). split.
  - intros [_ (edges & n & w & Hedges & Hin & Hn)].
    destruct Hn. by eapply Hclosed.
  - by intros ?%not_elem_of_empty.
Qed.

End SelectorFurther.

(** ** The pipeline *)

Section PipelineFurther.
Context `{PyFloat}.

Lemma main_unfold (file : list string) :
  ∃ sensors,
    identify_sensor_nodes file = Some sensors
    ∧ main file = Some (sensors, map_to_sensors (main_nearest file) sensors)
    ∧ ∀ s, s ∈ sensors ↔
           s ∈ candidates file
           ∧ ∃ edges n w, main_graph file !! s = Some edges
                          ∧ (n, w) ∈ edges ∧ n ∉ candidates file.
Proof.
  pose proof (pipeline_sensors_are_keys file float_100) as Hkeys.
  cbv zeta in Hkeys.
  destruct (remove_redundant_sensors_is_Some (main_graph file) (candidates file))
    as [sensors Hrun].
  { intros s Hs. apply elem_of_dom. by apply Hkeys. }
  exists sensors.
  assert (identify_sensor_nodes file = Some sensors) as Hfirst by done.
  split_and!; [done| |by apply remove_redundant_sensors_Some].
  unfold main. rewrite Hfirst. cbn [mbind option_bind].
  fold (main_graph file).
  by rewrite (remove_redundant_sensors_again _ _ _ Hrun).
Qed.

(** X20: the second redundancy removal of [main] changes nothing: [main]
    returns the sensors of [identify_sensor_nodes] and the mapping of the
    nearest map on them. *)
Theorem main_second_pass_unchanged (file : list string) :
  main file
  = sensors ← identify_sensor_nodes file;
    Some (sensors, map_to_sensors (main_nearest file) sensors).
Proof.
  destruct (main_unfold file) as (sensors & -> & -> & _). done.
Qed.

(** X21: [main] returns on every file, and its two results split the
    nodes of the graph: the sensors are nodes of the graph and the keys
    of the mapping are the other nodes. *)
Theorem main_partition (file : list string) :
  ∃ sensors mapping,
    main file = Some (sensors, mapping)
    ∧ sensors ⊆ dom (main_graph file)
    ∧ dom mapping = dom (main_graph file) ∖ sensors.
Proof.
  destruct (main_unfold file) as (sensors & _ & Hmain & Hsensors).
  exists sensors, (map_to_sensors (main_nearest file) sensors).
  split_and!; [done| |].
  - intros s [_ (edges & _ & _ & Hedges & _)]%Hsensors.
    apply elem_of_dom. by eexists.
  - apply set_eq. intros node.
    rewrite elem_of_difference, elem_of_dom, lookup_map_to_sensors.
    unfold main_graph. rewrite <-dom_find_nearest_create_graph, elem_of_dom.
    case_decide; [naive_solver|].
    split; [by intros [? ?] | naive_solver].
Qed.

Lemma main_nearest_adjacent (file : list string) (node t : string) :
  main_nearest file !! node = Some t →
  (t, float_1) ∈ adj (main_graph file) node
  ∧ (node, float_1) ∈ adj (main_graph file) t.
Proof.
  intros (edges & w & Hedges & Hin)%find_nearest_neighbors_Some.
  destruct (loader_inv_create_graph file float_100) as [_ _ Hw _ Hsym].
  pose proof (elem_of_adj _ _ _ _ Hedges Hin) as Hadj.
  assert (w = float_1) as -> by (by eapply Hw).
  split; [done|].
  apply occurrences_pos. unfold main_graph. rewrite <-Hsym.
  by apply occurrences_pos.
Qed.

Lemma lookup_map_to_sensors_Some nearest sensors node t :
  map_to_sensors nearest sensors !! node = Some t ↔
  (node ∉ sensors) ∧ nearest !! node = Some t.
Proof.
  rewrite lookup_map_to_sensors. case_decide; naive_solver.
Qed.

(** A node that is no candidate is mapped to a kept sensor. *)
Lemma non_candidate_target_kept (file : list string) sensors node t :
  kept_of_candidates file sensors →
  main_nearest file !! node = Some t →
  node ∉ candidates file → t ∈ sensors.
Proof.
  intros Hkept Hnode Hout. apply Hkept.
  destruct (main_nearest_adjacent file node t Hnode) as [_ Hback].
  apply elem_of_adj_inv in Hback as (edges & Hedges & Hin).
  split.
  - unfold candidates in *. apply elem_of_union. left.
    destruct (decide (t ∈ identify_initial_sensor_nodes (main_nearest file)))
      as [|Hnot]; [done|].
    destruct Hout. apply elem_of_union. right.
    apply elem_of_identify_left_out_nodes. by exists t.
  - by exists edges, node, float_1.
Qed.

(** X22: every node of the mapping that [main] returns is mapped to a
    neighbour of it in the graph, over an edge of weight 1.0 that is
    listed at both ends. *)
Theorem main_mapping_adjacent (file : list string) :
  ∃ sensors mapping,
    main file = Some (sensors, mapping)
    ∧ ∀ node t, mapping !! node = Some t →
        (t, float_1) ∈ adj (main_graph file) node
        ∧ (node, float_1) ∈ adj (main_graph file) t.
Proof.
  destruct (main_unfold file) as (sensors & _ & Hmain & _).
  exists sensors, (map_to_sensors (main_nearest file) sensors).
  split; [done|].
  intros node t [_ Hnode]%lookup_map_to_sensors_Some.
  by apply main_nearest_adjacent.
Qed.

(** X23: in the result of [main] a node is mapped to a node that is no
    sensor only when both were sensors before redundancy removal; a node
    that was never a sensor is mapped to a sensor. *)
Theorem main_target_is_sensor_or_pruned (file : list string) :
  ∃ sensors mapping,
    main file = Some (sensors, mapping)
    ∧ ∀ node t, mapping !! node = Some t →
        t ∈ sensors ∨ (node ∈ candidates file ∧ t ∈ candidates file).
Proof.
  destruct (main_unfold file) as (sensors & _ & Hmain & Hkept).
  exists sensors, (map_to_sensors (main_nearest file) sensors).
  split; [done|].
  intros node t [Hnode Ht]%lookup_map_to_sensors_Some.
  destruct (decide (node ∈ candidates file)) as [Hcand|Hout];
    [|left; by eapply non_candidate_target_kept].
  destruct (decide (t ∈ candidates file)) as [|Ht_out]; [by right|].
  destruct Hnode. apply Hkept. split; [done|].
  destruct (main_nearest_adjacent file node t Ht) as [Hthere _].
  apply elem_of_adj_inv in Hthere as (edges & Hedges & Hin).
  by exists edges, t, float_1.
Qed.

(** X24: every sensor that [main] returns has a neighbour in the graph
    that is a key of the mapping and is mapped to a sensor. *)
Theorem main_sensor_covers_neighbor (file : list string) :
  ∃ sensors mapping,
    main file = Some (sensors, mapping)
    ∧ ∀ s, s ∈ sensors →
        ∃ n t, (n, float_1) ∈ adj (main_graph file) s
               ∧ mapping !! n = Some t ∧ t ∈ sensors.
Proof.
  destruct (main_unfold file) as (sensors & _ & Hmain & Hkept).
  exists sensors, (map_to_sensors (main_nearest file) sensors).
  split; [done|].
  intros s [_ (edges & n & w & Hedges & Hin & Hn)]%Hkept.
  destruct (loader_inv_create_graph file float_100) as [_ Hnb Hw _ _].
  pose proof (elem_of_adj _ _ _ _ Hedges Hin) as Hadj.
  assert (w = float_1) as -> by (by eapply Hw).
  assert (n ∈ dom (main_nearest file)) as [t Ht]%elem_of_dom.
  { unfold main_nearest, main_graph.
    rewrite dom_find_nearest_create_graph. apply elem_of_dom.
    by eapply Hnb. }
  exists n, t. split_and!; [done| |by eapply non_candidate_target_kept].
  apply lookup_map_to_sensors_Some. split; [|done].
  by intros [? _]%Hkept.
Qed.

(** X25: a node of the skip set for the threshold 100.0 is no sensor, no
    key and no value of the mapping that [main] returns. *)
Theorem main_excludes_skipped (file : list string) (node : string) :
  node ∈ get_skip_nodes_from_elevation file float_100 →
  ∃ sensors mapping,
    main file = Some (sensors, mapping)
    ∧ (node ∉ sensors)
    ∧ mapping !! node = None
    ∧ ∀ k, mapping !! k ≠ Some node.
Proof.
  intros Hskip.
  destruct (main_unfold file) as (sensors & _ & Hmain & Hkept).
  exists sensors, (map_to_sensors (main_nearest file) sensors).
  destruct (loader_inv_create_graph file float_100) as [Hkey Hnb _ _ _].
  assert (main_graph file !! node = None) as Hnone.
  { destruct (main_graph file !! node) eqn:Hnode; [|done].
    destruct (Hkey node); [by eexists | done]. }
  split_and!; [done| | |].
  - intros [_ (edges & _ & _ & Hedges & _)]%Hkept. congruence.
  - destruct (map_to_sensors _ _ !! node) as [t|] eqn:Hnode; [|done].
    apply lookup_map_to_sensors_Some in Hnode as [_ Hnode].
    apply find_nearest_neighbors_Some in Hnode as (edges & _ & Hedges & _).
    unfold main_graph in *. congruence.
  - intros k [_ Hk]%lookup_map_to_sensors_Some.
    destruct (main_nearest_adjacent file k node Hk) as [Hthere _].
    destruct (Hkey node); [|done]. by eapply Hnb.
Qed.

End PipelineFurther.

(** ** The further properties on concrete inputs *)

Section FurtherInstances.
Import Decimal Samples MoreSamples.

Lemma read_inp_sections_ignores_witness :
  ignored_line "; note" = true
  ∧ _read_inp_sections (["[PIPES]"] ++ "; note" :: ["P1 A B"])
    = _read_inp_sections (["[PIPES]"] ++ ["P1 A B"]).
Proof.
  split; [reflexivity|].
  apply (read_inp_sections_ignores ["[PIPES]"] ["P1 A B"] "; note").
  reflexivity.
Defined.

Lemma read_inp_sections_before_first_header_witness :
  Forall (λ raw, header_line raw = false) stray_record
  ∧ _read_inp_sections (stray_record ++ single_pipe)
    = _read_inp_sections single_pipe.
Proof.
  assert (Forall (λ raw, header_line raw = false) stray_record) as Hpre.
  { repeat constructor. }
  split; [exact Hpre|].
  apply (read_inp_sections_before_first_header stray_record single_pipe Hpre).
Defined.

Lemma read_inp_sections_empty_name_witness :
  header_line "[]" = true
  ∧ header_name "[]" = EmptyString
  ∧ Forall (λ raw, header_line raw = false) stray_record
  ∧ _read_inp_sections ([] ++ "[]" :: stray_record ++ single_pipe)
    = _read_inp_sections ([] ++ "[]" :: single_pipe).
Proof.
  assert (Forall (λ raw, header_line raw = false) stray_record) as Hrec.
  { repeat constructor. }
  split_and!; [reflexivity | reflexivity | exact Hrec |].
  apply (read_inp_sections_empty_name [] stray_record single_pipe "[]");
    [reflexivity | reflexivity | exact Hrec].
Defined.

Lemma read_inp_sections_lines_witness :
  _read_inp_sections high_junction !! "PIPES" = Some ["P1 N1 N2"]
  ∧ "P1 N1 N2" ∈ ["P1 N1 N2"]
  ∧ ∃ raw, raw ∈ high_junction ∧ "P1 N1 N2" = PyStr.strip raw
           ∧ ignored_line raw = false ∧ header_line raw = false.
Proof.
  split_and!; [by vm_compute | left |].
  apply (read_inp_sections_lines high_junction "PIPES" ["P1 N1 N2"]
           "P1 N1 N2"); [by vm_compute | left].
Defined.

Lemma read_inp_sections_extends_witness :
  _read_inp_sections single_pipe !! "PIPES" = Some ["P1 A B"]
  ∧ ∃ extra, _read_inp_sections (single_pipe ++ ["P2 B C"]) !! "PIPES"
             = Some (["P1 A B"] ++ extra).
Proof.
  split; [by vm_compute|].
  apply (read_inp_sections_extends single_pipe ["P2 B C"] "PIPES" ["P1 A B"]).
  by vm_compute.
Defined.

Lemma read_line_current_is_key_witness :
  PyStr.truthy (foldl read_line (∅, EmptyString) single_pipe).2 = true
  ∧ is_Some ((foldl read_line (∅, EmptyString) single_pipe).1
               !! (foldl read_line (∅, EmptyString) single_pipe).2).
Proof.
  split; [by vm_compute|].
  apply (read_line_current_is_key single_pipe). by vm_compute.
Defined.

Lemma create_graph_node_names_witness :
  "B" ∈ dom (create_graph_from_inp two_pipes float_100).1
  ∧ is_token "B" = true
  ∧ ("B" ∉ get_skip_nodes_from_elevation two_pipes float_100)
  ∧ ∃ line p n1 n2 rest,
      line ∈ dict_get (_read_inp_sections two_pipes) "PIPES" []
      ∧ PyStr.split line = p :: n1 :: n2 :: rest
      ∧ ("B" = n1 ∨ "B" = n2).
Proof.
  split; [compute_done|].
  apply (create_graph_node_names two_pipes float_100 "B"). compute_done.
Defined.

Lemma decimal_lt_irreflexive (x : Qc) : float_lt x x = false.
Proof.
  apply bool_decide_eq_false. intros Hlt. by apply Qclt_not_eq in Hlt.
Qed.

Lemma decimal_lt_transitive (x y z : Qc) :
  float_lt x y = true → float_lt y z = true → float_lt x z = true.
Proof.
  intros Hxy%bool_decide_eq_true Hyz%bool_decide_eq_true.
  apply bool_decide_eq_true. by eapply Qclt_trans.
Qed.

Lemma find_nearest_neighbors_minimal_witness :
  (∀ x : Qc, float_lt x x = false)
  ∧ (∀ x y z : Qc,
       float_lt x y = true → float_lt y z = true → float_lt x z = true)
  ∧ find_nearest_neighbors path_graph !! "B" = Some "A"
  ∧ ∃ edges w,
      path_graph !! "B" = Some edges ∧ ("A", w) ∈ edges
      ∧ ∀ n' w', (n', w') ∈ edges → float_lt w' w = false.
Proof.
  split_and!;
    [exact decimal_lt_irreflexive | exact decimal_lt_transitive
    | by vm_compute |].
  apply (find_nearest_neighbors_minimal (H := decimal_float)
           path_graph "B" "A" decimal_lt_irreflexive decimal_lt_transitive).
  by vm_compute.
Defined.

Lemma nearest_neighbor_first_pipe_witness :
  float_lt float_1 float_1 = false
  ∧ find_nearest_neighbors (create_graph_from_inp two_pipes float_100).1 !! "B"
    = fst <$> head (entries_of (kept_pipes two_pipes float_100) "B").
Proof.
  split; [by vm_compute|].
  apply (nearest_neighbor_first_pipe two_pipes float_100 "B"). by vm_compute.
Defined.

Lemma remove_redundant_sensors_all_nodes_witness :
  (∀ k edges n w,
      path_graph !! k = Some edges → (n, w) ∈ edges → n ∈ dom path_graph)
  ∧ remove_redundant_sensors path_graph (dom path_graph) = Some ∅.
Proof.
  assert (∀ k edges n w,
    path_graph !! k = Some edges → (n, w) ∈ edges → n ∈ dom path_graph)
    as Hclosed.
  { assert (map_Forall (λ _ edges,
              Forall (λ e : string * float, e.1 ∈ dom path_graph) edges)
              path_graph) as Hall by compute_done.
    intros k edges n w Hk Hin.
    apply (proj1 (Forall_forall _ _) (Hall k edges Hk) (n, w)).
    exact Hin. }
  split; [exact Hclosed|].
  apply (remove_redundant_sensors_all_nodes path_graph Hclosed).
Defined.

Lemma main_excludes_skipped_witness :
  "N1" ∈ get_skip_nodes_from_elevation chain_with_high_end float_100
  ∧ ∃ sensors mapping,
      main chain_with_high_end = Some (sensors, mapping)
      ∧ ("N1" ∉ sensors)
      ∧ mapping !! "N1" = None
      ∧ ∀ k, mapping !! k ≠ Some "N1".
Proof.
  split; [compute_done|].
  apply (main_excludes_skipped chain_with_high_end "N1"). compute_done.
Defined.

Lemma map_to_sensors_before_pruning_witness :
  map_to_sensors star_nearest
    (identify_initial_sensor_nodes star_nearest
     ∪ identify_left_out_nodes star_nearest
         (identify_initial_sensor_nodes star_nearest)) !! "A" = Some "B"
  ∧ "B" ∈ identify_initial_sensor_nodes star_nearest
          ∪ identify_left_out_nodes star_nearest
              (identify_initial_sensor_nodes star_nearest).
Proof.
  split; [by vm_compute|].
  apply (map_to_sensors_before_pruning star_nearest "A" "B"). by vm_compute.
Defined.

End FurtherInstances.
